(** * CacheCraft: the two-layer cache of [pkg/cache/cache.go]

    A shallow embedding of the orchestrator ([New], [Get], [Set], [Purge],
    [Stats]) together with executable models of its two collaborators, the
    bounded LRU cache and the Redis client, followed by the properties of
    the tiered lookup protocol.

    Conventions.
    - An instant ([time.Time]) and a duration ([time.Duration], an int64
      count of nanoseconds) are both integers; [t.Add(d)] is [t + d] and
      [t.Before(u)] is [t < u].  A reading of the wall clock plus an int64
      duration stays far inside the range of [time.Time], so no wrap-around
      occurs in [Add].
    - [time.Now()] is an input: every operation receives the clock readings
      it takes, in the order it takes them.
    - A Go result [(x, err)] is a pair whose second component is
      [option error]; a [nil] byte slice is the empty list. *)

From Stdlib Require Import ZArith String List Lia.
From Stdlib.Strings Require Import Byte.
From stdpp Require Import base option gmap strings list.

Local Open Scope Z_scope.

(** ** Errors *)

(** The values of Go's [error] interface that occur in the package. *)
Inductive error : Type :=
  | ErrNotFound                        (* cache.ErrNotFound *)
  | RedisError (msg : string)          (* proto.RedisError, a reply of the server *)
  | OpError (msg : string)             (* a transport failure of the client *)
  | LruSizeError                       (* the error of lru.New *)
  | Errorf (prefix : string) (inner : error).  (* fmt.Errorf(prefix + ": %w", inner) *)

#[global] Instance error_eq_dec : EqDecision error.
Proof. solve_decision. Defined.

(** [errors.Is]: walk the chain of wrapped errors. *)
Fixpoint errors_Is (err target : error) : bool :=
  if decide (err = target) then true
  else match err with
       | Errorf _ inner => errors_Is inner target
       | _ => false
       end.

(** ** The bounded LRU cache (github.com/hashicorp/golang-lru) *)

Module lru.

(** Modelled from the spec: the bounded recency-ordered cache primitive,
    an external collaborator whose source is not part of the package.  The
    entries are kept most recently used first; [size] is the capacity. *)
Record Cache (V : Type) : Type := mk {
  size : Z;
  items : list (string * V)
}.
Arguments mk {V} _ _.
Arguments size {V} _.
Arguments items {V} _.

Section Ops.
Context {V : Type}.

(** Modelled from the spec: the entry stored under a key, if any. *)
Fixpoint assoc (k : string) (l : list (string * V)) : option V :=
  match l with
  | [] => None
  | (k', v) :: l' => if String.eqb k' k then Some v else assoc k l'
  end.

(** Modelled from the spec: the recency list without the key. *)
Fixpoint unlink (k : string) (l : list (string * V)) : list (string * V) :=
  match l with
  | [] => []
  | (k', v) :: l' =>
      if String.eqb k' k then unlink k l' else (k', v) :: unlink k l'
  end.

(** Modelled from the spec: [lru.New(size)], which refuses a capacity
    that is not positive. *)
Definition New (n : Z) : error + Cache V :=
  if n <=? 0 then inl LruSizeError else inr (mk n []).

(** Modelled from the spec: [get(key) -> (value, present)]; a hit makes
    the entry the most recently used one. *)
Definition Get (k : string) (c : Cache V) : option V * Cache V :=
  match assoc k (items c) with
  | Some v => (Some v, mk (size c) ((k, v) :: unlink k (items c)))
  | None => (None, c)
  end.

(** Modelled from the spec: [add(key, value)]; an existing key is
    overwritten and moved to the front, a new key is put in front and
    the least recently used entry is dropped when the capacity is
    exceeded.  The boolean tells whether an entry was evicted. *)
Definition Add (k : string) (v : V) (c : Cache V) : bool * Cache V :=
  match assoc k (items c) with
  | Some _ => (false, mk (size c) ((k, v) :: unlink k (items c)))
  | None =>
      let l := (k, v) :: items c in
      if size c <? Z.of_nat (length l)
      then (true, mk (size c) (removelast l))
      else (false, mk (size c) l)
  end.

(** Modelled from the spec: [remove(key)]; the boolean tells whether the
    key was present. *)
Definition Remove (k : string) (c : Cache V) : bool * Cache V :=
  (bool_decide (is_Some (assoc k (items c))),
   mk (size c) (unlink k (items c))).

(** Modelled from the spec: [len()]. *)
Definition Len (c : Cache V) : Z := Z.of_nat (length (items c)).

(** Modelled from the spec: [keys()], oldest first. *)
Definition Keys (c : Cache V) : list string := rev (map fst (items c)).

(** A look at the entry of a key that does not touch the recency order. *)
Definition Peek (k : string) (c : Cache V) : option V := assoc k (items c).
End Ops.

End lru.

(** ** The remote store (github.com/redis/go-redis/v9) *)

Module redis.

(** Modelled from the spec: what the remote store holds for a key, the
    bytes and the time-to-live it was given with them.  The store enforces
    that time-to-live on its own clock, outside the calls of the client:
    [ttl] is the expiration the client asked for, and a key whose time has
    run out is a key the store no longer holds, which is a step of the
    store and not part of any command below. *)
Record entry : Type := mkEntry {
  value : list byte;
  ttl : Z
}.

(** Modelled from the spec: the remote key-value store reached through a
    client handle.  [fault] is [Some msg] while the store cannot be
    reached; every command then fails with that transport error. *)
Record Client : Type := mk {
  store : gmap string entry;
  fault : option string
}.

(** [redis.Nil], the reply for a key that does not exist. *)
Definition Nil : error := RedisError "redis: nil"%string.

(** Modelled from the spec: [get(key) -> (bytes, found)], as
    [client.Get(ctx, key).Bytes()], on the store as it is found at the time
    of the call. *)
Definition Get (r : Client) (k : string) : list byte * option error :=
  match fault r with
  | Some msg => ([], Some (OpError msg))
  | None =>
      match store r !! k with
      | Some e => (value e, None)
      | None => ([], Some Nil)
      end
  end.

(** Modelled from the spec: [set(key, bytes, ttl)]. *)
Definition Set_ (r : Client) (k : string) (v : list byte) (d : Z)
  : option error * Client :=
  match fault r with
  | Some msg => (Some (OpError msg), r)
  | None => (None, mk (<[k := mkEntry v d]> (store r)) (fault r))
  end.

(** Modelled from the spec: [delete(key)]; deleting an absent key is not
    an error. *)
Definition Del (r : Client) (k : string) : option error * Client :=
  match fault r with
  | Some msg => (Some (OpError msg), r)
  | None => (None, mk (delete k (store r)) (fault r))
  end.

(** Modelled from the spec: [ping() -> ok/error]. *)
Definition Ping (r : Client) : option error :=
  match fault r with
  | Some msg => Some (OpError msg)
  | None => None
  end.

End redis.

(** ** The orchestrator (package cache) *)

Module cache.

Record cacheEntry : Type := mkEntry {
  value : list byte;
  expiresAt : Z
}.

Record Options : Type := mkOptions {
  RedisAddr : string;
  DefaultTTL : Z;
  MaxMemEntries : Z;
  RedisClient : option redis.Client
}.

(** The calls the orchestrator makes to its collaborators. *)
Inductive event : Type :=
  | LruGet (id : string)
  | LruAdd (id : string) (e : cacheEntry)
  | LruRemove (id : string)
  | RedisPing
  | RedisGet (id : string)
  | RedisSet (id : string) (v : list byte) (d : Z)
  | RedisDel (id : string).

(** The controller.  [journal] is a ghost field, not a field of the Go
    struct: the history of the calls made to the two collaborators, oldest
    first.  The [ctx] field is [context.Background()] throughout and is
    left out. *)
Record Cache : Type := mk {
  memCache : lru.Cache cacheEntry;
  redisClient : redis.Client;
  defaultTTL : Z;
  journal : list event
}.

Record Stats : Type := mkStats {
  MemHits : Z;
  MemMisses : Z;
  MemEvicts : Z;
  MemLen : Z;
  MemKeys : list string
}.

(** [New].  [net addr] is the store that a fresh client dialled at [addr]
    reaches. *)
Definition New (net : string -> redis.Client) (opts : Options)
  : option Cache * option error :=
  match lru.New (MaxMemEntries opts) with
  | inl err => (None, Some (Errorf "failed to create memory cache"%string err))
  | inr memCache =>
      match RedisClient opts with
      | Some redisClient =>
          (Some (mk memCache redisClient (DefaultTTL opts) []), None)
      | None =>
          let redisClient := net (RedisAddr opts) in
          match redis.Ping redisClient with
          | Some err => (None, Some (Errorf "failed to connect to redis"%string err))
          | None =>
              (Some (mk memCache redisClient (DefaultTTL opts) [RedisPing]),
               None)
          end
      end
  end.

(** Step 2 and 3 of [Get]: the lookup in Redis, from the state [mem], [j]
    that step 1 left.  [now] is the clock reading of line 105. *)
Definition Get_redis (c : Cache) (mem : lru.Cache cacheEntry)
    (j : list event) (id : string) (now : Z)
  : (list byte * option error) * Cache :=
  let '(val, err) := redis.Get (redisClient c) id in
  let j := j ++ [RedisGet id] in
  match err with
  | None =>
      let entry := mkEntry val (now + defaultTTL c) in
      let mem := snd (lru.Add id entry mem) in
      ((val, None),
       mk mem (redisClient c) (defaultTTL c) (j ++ [LruAdd id entry]))
  | Some err =>
      if decide (err <> redis.Nil)
      then (([], Some (Errorf "redis GET error"%string err)),
            mk mem (redisClient c) (defaultTTL c) j)
      else (([], Some ErrNotFound),
            mk mem (redisClient c) (defaultTTL c) j)
  end.

(** [Cache.Get].  [now1] is the clock reading of line 93, [now2] the one
    of line 105. *)
Definition Cache_Get (c : Cache) (id : string) (now1 now2 : Z)
  : (list byte * option error) * Cache :=
  let '(entryRaw, mem) := lru.Get id (memCache c) in
  let j := journal c ++ [LruGet id] in
  match entryRaw with
  | Some entry =>
      if now1 <? expiresAt entry
      then ((value entry, None), mk mem (redisClient c) (defaultTTL c) j)
      else
        let mem := snd (lru.Remove id mem) in
        Get_redis c mem (j ++ [LruRemove id]) id now2
  | None => Get_redis c mem j id now2
  end.

(** [Cache.Set]; the result of the Redis command is dropped. *)
Definition Cache_Set (c : Cache) (id : string) (v : list byte) (now : Z)
  : Cache :=
  let expiresAt := now + defaultTTL c in
  let entry := mkEntry v expiresAt in
  let mem := snd (lru.Add id entry (memCache c)) in
  let r := snd (redis.Set_ (redisClient c) id v (defaultTTL c)) in
  mk mem r (defaultTTL c)
     (journal c ++ [LruAdd id entry; RedisSet id v (defaultTTL c)]).

(** [Cache.Purge]; the result of the Redis command is dropped. *)
Definition Cache_Purge (c : Cache) (id : string) : Cache :=
  let mem := snd (lru.Remove id (memCache c)) in
  let r := snd (redis.Del (redisClient c) id) in
  mk mem r (defaultTTL c) (journal c ++ [LruRemove id; RedisDel id]).

(** [Cache.Stats]; the fields the composite literal leaves out take Go's
    zero value. *)
Definition Cache_Stats (c : Cache) : Stats :=
  mkStats 0 0 0 (lru.Len (memCache c)) (lru.Keys (memCache c)).

End cache.

Import cache.

(** ** Histories of calls *)

(** One step of a client of the cache.  [OpRemote r] is a step of the
    environment: the shared remote store is found in state [r] afterwards
    (another writer, an expiry on the store's own clock, a change of
    connectivity). *)
Inductive op : Type :=
  | OpGet (id : string) (now1 now2 : Z)
  | OpSet (id : string) (v : list byte) (now : Z)
  | OpPurge (id : string)
  | OpRemote (r : redis.Client).

Definition apply_op (c : Cache) (o : op) : Cache :=
  match o with
  | OpGet id now1 now2 => snd (Cache_Get c id now1 now2)
  | OpSet id v now => Cache_Set c id v now
  | OpPurge id => Cache_Purge c id
  | OpRemote r => cache.mk (memCache c) r (defaultTTL c) (journal c)
  end.

Definition run (c : Cache) (ops : list op) : Cache := fold_left apply_op ops c.

(** The clock readings of a history never go backwards, starting at [t]. *)
Fixpoint chronological (t : Z) (ops : list op) : Prop :=
  match ops with
  | [] => True
  | OpGet _ now1 now2 :: ops' =>
      t <= now1 /\ now1 <= now2 /\ chronological now2 ops'
  | OpSet _ _ now :: ops' => t <= now /\ chronological now ops'
  | _ :: ops' => chronological t ops'
  end.

(** The last clock reading of a history that starts at [t]. *)
Fixpoint last_reading (t : Z) (ops : list op) : Z :=
  match ops with
  | [] => t
  | OpGet _ _ now2 :: ops' => last_reading now2 ops'
  | OpSet _ _ now :: ops' => last_reading now ops'
  | _ :: ops' => last_reading t ops'
  end.

(** ** Vocabulary of the statements *)

(** The value the local layer serves for [id] at instant [now]: the entry is
    there and [now] is before its expiry. *)
Definition local_fresh (c : Cache) (id : string) (now : Z) : option (list byte) :=
  match lru.Peek id (memCache c) with
  | Some entry => if now <? expiresAt entry then Some (value entry) else None
  | None => None
  end.

(** What [Get] answers from a reply of the remote store: the value, the
    [ErrNotFound] sentinel for [redis.Nil], the wrapped error otherwise. *)
Definition fallback_result (reply : list byte * option error)
  : list byte * option error :=
  match reply with
  | (val, None) => (val, None)
  | (_, Some err) =>
      if decide (err = redis.Nil) then ([], Some ErrNotFound)
      else ([], Some (Errorf "redis GET error"%string err))
  end.

(** The commands that change the remote store. *)
Definition remote_write (ev : event) : bool :=
  match ev with
  | RedisSet _ _ _ | RedisDel _ => true
  | _ => false
  end.

(** The commands sent to the remote store. *)
Definition remote_call (ev : event) : bool :=
  match ev with
  | RedisPing | RedisGet _ | RedisSet _ _ _ | RedisDel _ => true
  | _ => false
  end.

(** The error classes of the construction. *)
Definition ConfigurationError (err : error) : Prop :=
  exists inner, err = Errorf "failed to create memory cache"%string inner.

(** Every local entry has expired by instant [t]. *)
Definition all_stale (c : Cache) (t : Z) : Prop :=
  forall id entry, In (id, entry) (lru.items (memCache c)) -> expiresAt entry <= t.

(** The calls made between state [c] and a later state [c']. *)
Definition calls_since (c c' : Cache) : list event :=
  drop (length (journal c)) (journal c').

(** The three shapes of a result of [Get]. *)
Definition is_value (res : list byte * option error) : Prop :=
  snd res = None.

Definition is_not_found (res : list byte * option error) : Prop :=
  res = ([], Some ErrNotFound).

Definition is_remote_error (res : list byte * option error) : Prop :=
  exists err, err <> redis.Nil /\
    res = ([], Some (Errorf "redis GET error"%string err)).

(** The second error class of the construction. *)
Definition ConnectionError (err : error) : Prop :=
  exists inner, err = Errorf "failed to connect to redis"%string inner.

(** A step of the cache's own client, as opposed to a step of the
    environment. *)
Definition own_step (o : op) : bool :=
  match o with
  | OpRemote _ => false
  | _ => true
  end.

(** The local layer holds nothing that the remote store does not hold under
    the same key with the same bytes. *)
Definition coherent (c : Cache) : Prop :=
  forall id entry, lru.Peek id (memCache c) = Some entry ->
    exists held, redis.store (redisClient c) !! id = Some held /\
                 redis.value held = value entry.

(** What the remote store holds for a key, as a result of [Get]. *)
Definition held_result (r : redis.Client) (id : string)
  : list byte * option error :=
  match redis.store r !! id with
  | Some held => (redis.value held, None)
  | None => ([], Some ErrNotFound)
  end.

(** The local cache is well formed: no key twice, no more entries than the
    capacity. *)
Definition lru_wf {V : Type} (m : lru.Cache V) : Prop :=
  List.NoDup (map fst (lru.items m)) /\ Z.of_nat (length (lru.items m)) <= lru.size m.

(** A history of [Set] calls, one per triple of key, value and clock
    reading. *)
Definition set_each (kvs : list (string * list byte * Z)) : list op :=
  map (fun kv => OpSet (fst (fst kv)) (snd (fst kv)) (snd kv)) kvs.

(** ** The example program (package main) *)

Module main.




Definition opts : Options :=
  mkOptions "localhost:6379" (2 * 1000000000) 100 None.




End main.

(** ** Sample states *)

Definition sample_store : redis.Client :=
  redis.mk (<["k2"%string := redis.mkEntry [x62] 60]> ∅) None.

Definition sample_down : redis.Client :=
  redis.mk ∅ (Some "dial tcp: connection refused"%string).

Definition sample_cache : Cache :=
  cache.mk (lru.mk 1 []) sample_store 60 [].

Definition sample_cache_down : Cache :=
  cache.mk (lru.mk 1 []) sample_down 60 [].

Definition sample_net (addr : string) : redis.Client := sample_store.

Definition sample_options (ttl : Z) : Options :=
  mkOptions "localhost:6379"%string ttl 2 None.

(** ** The model at work *)

Example scenario_set_get :
  fst (Cache_Get (Cache_Set sample_cache "x" [x31] 0) "x" 10 10) = ([x31], None).
Proof. vm_compute. reflexivity. Qed.

Example scenario_evict_then_fallback :
  let c1 := Cache_Set sample_cache "x" [x31] 0 in
  let c2 := Cache_Set c1 "y" [x32] 1 in
  lru.Keys (memCache c2) = ["y"%string] /\
  fst (Cache_Get c2 "x" 2 3) = ([x31], None) /\
  lru.Keys (memCache (snd (Cache_Get c2 "x" 2 3))) = ["x"%string].
Proof. vm_compute. repeat split; reflexivity. Qed.

Example scenario_miss :
  fst (Cache_Get sample_cache "nope" 0 0) = ([], Some ErrNotFound).
Proof. vm_compute. reflexivity. Qed.

Example scenario_down :
  fst (Cache_Get sample_cache_down "k2" 0 0)
  = ([], Some (Errorf "redis GET error" (OpError "dial tcp: connection refused"))).
Proof. vm_compute. reflexivity. Qed.

(** ** Facts about the LRU cache *)

Section lru_facts.
Context {V : Type}.
Implicit Types (k : string) (v : V) (l : list (string * V)) (m : lru.Cache V).

Lemma assoc_unlink_eq k l : lru.assoc k (lru.unlink k l) = None.
Proof.
  induction l as [|[k' v'] l IH]; simpl; [reflexivity|].
  destruct (String.eqb k' k) eqn:E; [exact IH|].
  simpl. rewrite E. exact IH.
Qed.

Lemma unlink_idem k l : lru.unlink k (lru.unlink k l) = lru.unlink k l.
Proof.
  induction l as [|[k' v'] l IH]; simpl; [reflexivity|].
  destruct (String.eqb k' k) eqn:E; [exact IH|].
  simpl. rewrite E, IH. reflexivity.
Qed.

Lemma unlink_absent k l : lru.assoc k l = None -> lru.unlink k l = l.
Proof.
  induction l as [|[k' v'] l IH]; simpl; [reflexivity|].
  destruct (String.eqb k' k); [discriminate|].
  intros H. rewrite (IH H). reflexivity.
Qed.

Lemma in_unlink k l p : In p (lru.unlink k l) -> In p l.
Proof.
  induction l as [|[k' v'] l IH]; simpl; [tauto|].
  destruct (String.eqb k' k); simpl; tauto.
Qed.

Lemma in_removelast (A : Type) (x : A) (xs : list A) :
  In x (removelast xs) -> In x xs.
Proof.
  induction xs as [|y ys IH]; simpl; [tauto|].
  destruct ys as [|z zs]; [simpl; tauto|].
  intros [->|H]; [left; reflexivity|right; exact (IH H)].
Qed.

Lemma Peek_Get k m : fst (lru.Get k m) = lru.Peek k m.
Proof. unfold lru.Get, lru.Peek. destruct (lru.assoc k (lru.items m)); reflexivity. Qed.

Lemma Peek_after_Get k m : lru.Peek k (snd (lru.Get k m)) = lru.Peek k m.
Proof.
  unfold lru.Get, lru.Peek.
  destruct (lru.assoc k (lru.items m)) eqn:E; simpl; [|exact E].
  rewrite String.eqb_refl. reflexivity.
Qed.

Lemma Peek_after_Remove k m : lru.Peek k (snd (lru.Remove k m)) = None.
Proof. unfold lru.Remove, lru.Peek. simpl. apply assoc_unlink_eq. Qed.

Lemma Remove_after_Get k m :
  snd (lru.Remove k (snd (lru.Get k m))) = snd (lru.Remove k m).
Proof.
  unfold lru.Remove, lru.Get.
  destruct (lru.assoc k (lru.items m)); simpl; [|reflexivity].
  rewrite String.eqb_refl, unlink_idem. reflexivity.
Qed.

Lemma Get_absent k m : lru.Peek k m = None -> lru.Get k m = (None, m).
Proof. unfold lru.Get, lru.Peek. intros ->. reflexivity. Qed.

(** With a positive capacity the entry just added is the one found. *)
Lemma Peek_after_Add k v m :
  0 < lru.size m -> lru.Peek k (snd (lru.Add k v m)) = Some v.
Proof.
  intros Hsize. unfold lru.Add, lru.Peek.
  destruct (lru.assoc k (lru.items m)); simpl.
  - rewrite String.eqb_refl. reflexivity.
  - destruct (lru.size m <? _) eqn:Hlt; cbn [snd lru.items].
    + destruct (lru.items m) as [|p l].
      * apply Z.ltb_lt in Hlt. simpl in Hlt. lia.
      * cbn [removelast lru.assoc]. rewrite String.eqb_refl. reflexivity.
    + cbn [lru.assoc]. rewrite String.eqb_refl. reflexivity.
Qed.

Lemma size_Get k m : lru.size (snd (lru.Get k m)) = lru.size m.
Proof. unfold lru.Get. destruct (lru.assoc k (lru.items m)); reflexivity. Qed.

Lemma size_Add k v m : lru.size (snd (lru.Add k v m)) = lru.size m.
Proof.
  unfold lru.Add. destruct (lru.assoc k (lru.items m)); [reflexivity|].
  destruct (lru.size m <? _); reflexivity.
Qed.

Lemma size_Remove k m : lru.size (snd (lru.Remove k m)) = lru.size m.
Proof. reflexivity. Qed.

Lemma in_items_Get k m p :
  In p (lru.items (snd (lru.Get k m))) -> In p (lru.items m).
Proof.
  unfold lru.Get. destruct (lru.assoc k (lru.items m)) as [v|] eqn:E; simpl; [|tauto].
  intros [<-|H]; [|exact (in_unlink _ _ _ H)].
  clear -E. induction (lru.items m) as [|[k' v'] l IH]; simpl in *; [discriminate|].
  destruct (String.eqb k' k) eqn:Ek; [|right; exact (IH E)].
  apply String.eqb_eq in Ek. left. congruence.
Qed.

Lemma in_items_Remove k m p :
  In p (lru.items (snd (lru.Remove k m))) -> In p (lru.items m).
Proof. simpl. apply in_unlink. Qed.

Lemma in_items_Add k v m p :
  In p (lru.items (snd (lru.Add k v m))) -> p = (k, v) \/ In p (lru.items m).
Proof.
  unfold lru.Add. destruct (lru.assoc k (lru.items m)); simpl.
  - intros [<-|H]; [left; reflexivity|right; exact (in_unlink _ _ _ H)].
  - destruct (lru.size m <? _); cbn [snd lru.items]; intros H.
    + apply (in_removelast _ p ((k, v) :: lru.items m)) in H.
      destruct H as [<-|H]; [left|right]; auto.
    + destruct H as [<-|H]; [left|right]; auto.
Qed.

End lru_facts.

(** ** Facts about the orchestrator *)

Section cache_facts.
Implicit Types (c : Cache) (k : string) (e : cacheEntry) (v : list byte).

Lemma calls_since_app c c' s :
  journal c' = journal c ++ s -> calls_since c c' = s.
Proof. intros H. unfold calls_since. rewrite H. apply drop_app_length. Qed.

Lemma Get_redis_result c mem j k now :
  fst (Get_redis c mem j k now) = fallback_result (redis.Get (redisClient c) k).
Proof.
  unfold Get_redis, fallback_result.
  destruct (redis.Get (redisClient c) k) as [val [err|]]; [|reflexivity].
  destruct (decide (err <> redis.Nil)) as [Hne|Heq];
    destruct (decide (err = redis.Nil)) as [Heq'|Hne']; try reflexivity.
  - contradiction.
  - exfalso. apply Heq. exact Hne'.
Qed.

Lemma Get_redis_client c mem j k now :
  redisClient (snd (Get_redis c mem j k now)) = redisClient c.
Proof.
  unfold Get_redis.
  destruct (redis.Get (redisClient c) k) as [val [err|]]; [|reflexivity].
  destruct (decide (err <> redis.Nil)); reflexivity.
Qed.

Lemma Get_redis_ttl c mem j k now :
  defaultTTL (snd (Get_redis c mem j k now)) = defaultTTL c.
Proof.
  unfold Get_redis.
  destruct (redis.Get (redisClient c) k) as [val [err|]]; [|reflexivity].
  destruct (decide (err <> redis.Nil)); reflexivity.
Qed.

(** The lookup in Redis appends the GET, and an ADD of the fresh entry when
    the key was found. *)
Lemma Get_redis_journal c mem j k now :
  journal (snd (Get_redis c mem j k now))
  = j ++ RedisGet k ::
      match redis.Get (redisClient c) k with
      | (val, None) => [LruAdd k (mkEntry val (now + defaultTTL c))]
      | (_, Some _) => []
      end.
Proof.
  unfold Get_redis.
  destruct (redis.Get (redisClient c) k) as [val [err|]].
  - destruct (decide (err <> redis.Nil)); reflexivity.
  - simpl. rewrite <- app_assoc. reflexivity.
Qed.

Lemma Get_redis_mem c mem j k now :
  memCache (snd (Get_redis c mem j k now))
  = match redis.Get (redisClient c) k with
    | (val, None) => snd (lru.Add k (mkEntry val (now + defaultTTL c)) mem)
    | (_, Some _) => mem
    end.
Proof.
  unfold Get_redis.
  destruct (redis.Get (redisClient c) k) as [val [err|]]; [|reflexivity].
  destruct (decide (err <> redis.Nil)); reflexivity.
Qed.

(** The three paths of step 1. *)
Lemma Get_hit c k e now1 now2 :
  lru.Peek k (memCache c) = Some e -> now1 < expiresAt e ->
  Cache_Get c k now1 now2
  = ((value e, None),
     cache.mk (snd (lru.Get k (memCache c))) (redisClient c) (defaultTTL c)
       (journal c ++ [LruGet k])).
Proof.
  intros Hpeek Hlt. unfold Cache_Get.
  pose proof (Peek_Get k (memCache c)) as Hfst. rewrite Hpeek in Hfst.
  destruct (lru.Get k (memCache c)) as [raw mem]. simpl in Hfst. subst raw.
  apply Z.ltb_lt in Hlt. rewrite Hlt. reflexivity.
Qed.

Lemma Get_expired c k e now1 now2 :
  lru.Peek k (memCache c) = Some e -> expiresAt e <= now1 ->
  Cache_Get c k now1 now2
  = Get_redis c (snd (lru.Remove k (memCache c)))
      (journal c ++ [LruGet k; LruRemove k]) k now2.
Proof.
  intros Hpeek Hge. unfold Cache_Get.
  pose proof (Peek_Get k (memCache c)) as Hfst. rewrite Hpeek in Hfst.
  pose proof (Remove_after_Get k (memCache c)) as Hrm.
  destruct (lru.Get k (memCache c)) as [raw mem].
  cbn [fst] in Hfst. cbn [snd] in Hrm. subst raw.
  apply Z.ltb_ge in Hge. rewrite Hge, Hrm, <- app_assoc. reflexivity.
Qed.

Lemma Get_absent_local c k now1 now2 :
  lru.Peek k (memCache c) = None ->
  Cache_Get c k now1 now2
  = Get_redis c (memCache c) (journal c ++ [LruGet k]) k now2.
Proof.
  intros Hpeek. unfold Cache_Get. rewrite (Get_absent _ _ Hpeek). reflexivity.
Qed.

Lemma local_fresh_None c k now :
  local_fresh c k now = None <->
  lru.Peek k (memCache c) = None \/
  exists e, lru.Peek k (memCache c) = Some e /\ expiresAt e <= now.
Proof.
  unfold local_fresh. destruct (lru.Peek k (memCache c)) as [e|].
  - destruct (now <? expiresAt e) eqn:E.
    + apply Z.ltb_lt in E. split; [discriminate|].
      intros [H|(e' & H & Hle)]; [discriminate|]. injection H as <-. lia.
    + apply Z.ltb_ge in E. split; [|reflexivity]. intros _. right. eauto.
  - split; [left|]; reflexivity.
Qed.

(** Whenever the local layer has nothing fresh, [Get] answers from the
    reply of the remote store, after one GET. *)
Lemma Get_fallback c k now1 now2 :
  local_fresh c k now1 = None ->
  fst (Cache_Get c k now1 now2) = fallback_result (redis.Get (redisClient c) k) /\
  In (RedisGet k) (calls_since c (snd (Cache_Get c k now1 now2))).
Proof.
  intros Hfresh. apply local_fresh_None in Hfresh.
  destruct Hfresh as [Habs|(e & Hpeek & Hle)].
  - rewrite (Get_absent_local _ _ _ _ Habs). split; [apply Get_redis_result|].
    erewrite calls_since_app.
    2:{ rewrite Get_redis_journal, <- app_assoc. reflexivity. }
    simpl. auto.
  - rewrite (Get_expired _ _ _ _ _ Hpeek Hle). split; [apply Get_redis_result|].
    erewrite calls_since_app.
    2:{ rewrite Get_redis_journal, <- app_assoc. reflexivity. }
    simpl. auto.
Qed.

Lemma Get_client c k now1 now2 :
  redisClient (snd (Cache_Get c k now1 now2)) = redisClient c.
Proof.
  unfold Cache_Get. destruct (lru.Get k (memCache c)) as [[e|] mem].
  - destruct (now1 <? expiresAt e); [reflexivity|apply Get_redis_client].
  - apply Get_redis_client.
Qed.

Lemma Get_ttl c k now1 now2 :
  defaultTTL (snd (Cache_Get c k now1 now2)) = defaultTTL c.
Proof.
  unfold Cache_Get. destruct (lru.Get k (memCache c)) as [[e|] mem].
  - destruct (now1 <? expiresAt e); [reflexivity|apply Get_redis_ttl].
  - apply Get_redis_ttl.
Qed.

Lemma Get_size c k now1 now2 :
  lru.size (memCache (snd (Cache_Get c k now1 now2))) = lru.size (memCache c).
Proof.
  unfold Cache_Get.
  pose proof (size_Get k (memCache c)) as Hsz.
  destruct (lru.Get k (memCache c)) as [[e|] mem]; simpl in Hsz.
  - destruct (now1 <? expiresAt e); [exact Hsz|].
    rewrite Get_redis_mem.
    destruct (redis.Get (redisClient c) k) as [val [err|]];
      [|rewrite size_Add]; simpl; exact Hsz.
  - rewrite Get_redis_mem.
    destruct (redis.Get (redisClient c) k) as [val [err|]];
      [|rewrite size_Add]; exact Hsz.
Qed.

End cache_facts.

(** ** The tiered lookup *)

(** C1. When the local layer has no entry for [k], or an expired one, and
    the lookup in the remote store finds the value [v], [Get] returns [v]
    and leaves the entry [{v, now + defaultTTL}] in the local cache; any
    following [Get] of [k] that reads the clock before that expiry returns
    [v] from the local layer, with no further call to the remote store. *)
Theorem get_remote_hit_repopulates
    (c : Cache) (k : string) (v : list byte) (now1 now2 : Z) :
  0 < lru.size (memCache c) ->
  (lru.Peek k (memCache c) = None \/
   exists e, lru.Peek k (memCache c) = Some e /\ expiresAt e <= now1) ->
  redis.Get (redisClient c) k = (v, None) ->
  let c' := snd (Cache_Get c k now1 now2) in
  fst (Cache_Get c k now1 now2) = (v, None) /\
  lru.Peek k (memCache c') = Some (mkEntry v (now2 + defaultTTL c)) /\
  forall now3 now4, now3 < now2 + defaultTTL c ->
    let c'' := snd (Cache_Get c' k now3 now4) in
    fst (Cache_Get c' k now3 now4) = (v, None) /\
    calls_since c' c'' = [LruGet k] /\
    redisClient c'' = redisClient c'.
Proof.
  intros Hsize Hlocal Hremote c'.
  assert (Hres : fst (Cache_Get c k now1 now2) = (v, None)).
  { apply local_fresh_None in Hlocal.
    rewrite (proj1 (Get_fallback c k now1 now2 Hlocal)), Hremote. reflexivity. }
  assert (Hpeek : lru.Peek k (memCache c')
                  = Some (mkEntry v (now2 + defaultTTL c))).
  { subst c'. destruct Hlocal as [Habs|(e & He & Hle)].
    - rewrite (Get_absent_local _ _ _ _ Habs), Get_redis_mem, Hremote.
      apply Peek_after_Add. exact Hsize.
    - rewrite (Get_expired _ _ _ _ _ He Hle), Get_redis_mem, Hremote.
      apply Peek_after_Add. exact Hsize. }
  split; [exact Hres|]. split; [exact Hpeek|].
  intros now3 now4 Hlt c''. subst c''.
  rewrite (Get_hit c' k _ now3 now4 Hpeek Hlt). cbn [fst snd value redisClient].
  split; [reflexivity|]. split; [|reflexivity].
  apply calls_since_app. reflexivity.
Qed.

Lemma get_remote_hit_repopulates_witness :
  0 < lru.size (memCache sample_cache) /\
  fst (Cache_Get sample_cache "k2" 5 6) = ([x62], None) /\
  lru.Peek "k2" (memCache (snd (Cache_Get sample_cache "k2" 5 6)))
  = Some (mkEntry [x62] 66).
Proof.
  assert (Hsize : 0 < lru.size (memCache sample_cache)) by (vm_compute; reflexivity).
  split; [exact Hsize|].
  pose proof (get_remote_hit_repopulates sample_cache "k2" [x62] 5 6 Hsize
                (or_introl eq_refl) eq_refl) as H.
  split; [exact (proj1 H)|exact (proj1 (proj2 H))].
Defined.

(** C2. Right after [Set(k, v)], a [Get(k)] that reads the clock before the
    entry's expiry ([now + defaultTTL], which lies ahead exactly when the
    default TTL is positive) returns [v] from the local layer and sends
    nothing to the remote store. *)
Theorem set_then_get_is_local_hit
    (c : Cache) (k : string) (v : list byte) (now0 now1 now2 : Z) :
  0 < lru.size (memCache c) ->
  0 < defaultTTL c ->
  now0 <= now1 < now0 + defaultTTL c ->
  let c1 := Cache_Set c k v now0 in
  let c2 := snd (Cache_Get c1 k now1 now2) in
  fst (Cache_Get c1 k now1 now2) = (v, None) /\
  calls_since c1 c2 = [LruGet k] /\
  filter (fun ev => remote_call ev = true) (calls_since c1 c2) = [] /\
  redisClient c2 = redisClient c1.
Proof.
  intros Hsize _ [_ Hlt] c1 c2.
  assert (Hpeek : lru.Peek k (memCache c1) = Some (mkEntry v (now0 + defaultTTL c))).
  { subst c1. unfold Cache_Set. cbn [memCache]. apply Peek_after_Add. exact Hsize. }
  subst c2. rewrite (Get_hit c1 k _ now1 now2 Hpeek Hlt).
  cbn [fst snd value redisClient].
  assert (Hcalls : calls_since c1
            (cache.mk (snd (lru.Get k (memCache c1))) (redisClient c1)
               (defaultTTL c1) (journal c1 ++ [LruGet k])) = [LruGet k]).
  { apply calls_since_app. reflexivity. }
  rewrite Hcalls. repeat split; reflexivity.
Qed.

Lemma set_then_get_is_local_hit_witness :
  0 < lru.size (memCache sample_cache) /\
  0 < defaultTTL sample_cache /\
  0 <= 59 < 0 + defaultTTL sample_cache /\
  fst (Cache_Get (Cache_Set sample_cache "x" [x31] 0) "x" 59 59) = ([x31], None).
Proof.
  assert (Hsize : 0 < lru.size (memCache sample_cache)) by (vm_compute; reflexivity).
  assert (Httl : 0 < defaultTTL sample_cache) by (vm_compute; reflexivity).
  assert (Hnow : 0 <= 59 < 0 + defaultTTL sample_cache) by (vm_compute; split; [discriminate|reflexivity]).
  split; [exact Hsize|]. split; [exact Httl|]. split; [exact Hnow|].
  exact (proj1 (set_then_get_is_local_hit sample_cache "x" [x31] 0 59 59 Hsize Httl Hnow)).
Defined.

(** ** Expiry *)

(** C3. A local entry whose [expiresAt] lies in the past is treated as
    absent: [Get] answers from the reply of the remote store alone, exactly
    as for the cache from which the entry was removed beforehand, and it
    removes the entry ([LruRemove]) before it sends the GET; unless the
    remote store supplies the key afresh, the key is gone from the local
    cache afterwards. *)
Theorem get_drops_expired_entry
    (c : Cache) (k : string) (e : cacheEntry) (now1 now2 : Z) :
  lru.Peek k (memCache c) = Some e ->
  expiresAt e < now1 ->
  let absent :=
    cache.mk (snd (lru.Remove k (memCache c))) (redisClient c) (defaultTTL c)
      (journal c) in
  let res := fst (Cache_Get c k now1 now2) in
  let c' := snd (Cache_Get c k now1 now2) in
  lru.Peek k (memCache absent) = None /\
  res = fst (Cache_Get absent k now1 now2) /\
  memCache c' = memCache (snd (Cache_Get absent k now1 now2)) /\
  res = fallback_result (redis.Get (redisClient c) k) /\
  (exists rest,
     calls_since c c' = LruGet k :: LruRemove k :: RedisGet k :: rest /\
     Forall (fun ev => ev <> LruRemove k /\ ev <> RedisGet k) rest) /\
  (snd res <> None -> lru.Peek k (memCache c') = None).
Proof.
  intros Hpeek Hpast absent res c'.
  assert (Habs : lru.Peek k (memCache absent) = None)
    by apply Peek_after_Remove.
  assert (Hle : expiresAt e <= now1) by lia.
  subst res c'.
  rewrite (Get_expired c k e now1 now2 Hpeek Hle).
  rewrite (Get_absent_local absent k now1 now2 Habs).
  rewrite !Get_redis_result, !Get_redis_mem.
  cbn [redisClient memCache defaultTTL absent].
  split; [exact Habs|]. split; [reflexivity|]. split; [reflexivity|].
  split; [reflexivity|]. split.
  - exists (match redis.Get (redisClient c) k with
            | (val, None) => [LruAdd k (mkEntry val (now2 + defaultTTL c))]
            | (_, Some _) => []
            end).
    split.
    + apply calls_since_app. rewrite Get_redis_journal, <- app_assoc. reflexivity.
    + destruct (redis.Get (redisClient c) k) as [val [err|]]; [constructor|].
      constructor; [split; discriminate|constructor].
  - destruct (redis.Get (redisClient c) k) as [val [err|]]; cbn [fallback_result].
    + intros _. exact Habs.
    + intros H. contradiction H. reflexivity.
Qed.

Lemma get_drops_expired_entry_witness :
  let c := Cache_Set sample_cache "x" [x31] 0 in
  lru.Peek "x" (memCache c) = Some (mkEntry [x31] 60) /\
  expiresAt (mkEntry [x31] 60) < 61 /\
  fst (Cache_Get c "x" 61 62)
  = fallback_result (redis.Get (redisClient c) "x").
Proof.
  intros c.
  assert (Hpeek : lru.Peek "x" (memCache c) = Some (mkEntry [x31] 60))
    by (vm_compute; reflexivity).
  assert (Hpast : expiresAt (mkEntry [x31] 60) < 61) by (vm_compute; reflexivity).
  split; [exact Hpeek|]. split; [exact Hpast|].
  pose proof (get_drops_expired_entry c "x" _ 61 62 Hpeek Hpast) as H.
  exact (proj1 (proj2 (proj2 (proj2 H)))).
Defined.

(** C9. The expiry test is strict: at the very instant [expiresAt] the
    entry counts as expired, so [Get] removes it from the local cache and
    answers from the remote store: the local cache after the call is the one
    without the entry, plus the fresh entry when the remote store has the
    key.  The local layer serves the entry, and keeps it, exactly when the
    clock reading is strictly before [expiresAt]. *)
Theorem expiry_comparison_is_strict
    (c : Cache) (k : string) (e : cacheEntry) (now2 : Z) :
  lru.Peek k (memCache c) = Some e ->
  (let c' := snd (Cache_Get c k (expiresAt e) now2) in
   fst (Cache_Get c k (expiresAt e) now2)
   = fallback_result (redis.Get (redisClient c) k) /\
   local_fresh c k (expiresAt e) = None /\
   (exists rest,
      calls_since c c' = LruGet k :: LruRemove k :: RedisGet k :: rest) /\
   memCache c'
   = match redis.Get (redisClient c) k with
     | (val, None) =>
         snd (lru.Add k (mkEntry val (now2 + defaultTTL c))
                (snd (lru.Remove k (memCache c))))
     | (_, Some _) => snd (lru.Remove k (memCache c))
     end /\
   lru.Peek k (snd (lru.Remove k (memCache c))) = None /\
   (snd (fst (Cache_Get c k (expiresAt e) now2)) <> None ->
    lru.Peek k (memCache c') = None)) /\
  (forall now1,
     calls_since c (snd (Cache_Get c k now1 now2)) = [LruGet k]
     <-> now1 < expiresAt e) /\
  (forall now1, now1 < expiresAt e ->
     fst (Cache_Get c k now1 now2) = (value e, None) /\
     lru.Peek k (memCache (snd (Cache_Get c k now1 now2))) = Some e).
Proof.
  intros Hpeek. split; [|split].
  - intros c'. subst c'.
    rewrite (Get_expired c k e _ now2 Hpeek (Z.le_refl _)).
    rewrite Get_redis_result, Get_redis_mem.
    split; [reflexivity|]. split; [|split; [|split; [|split]]].
    + apply local_fresh_None. right. exists e. split; [exact Hpeek|lia].
    + eexists. apply calls_since_app.
      rewrite Get_redis_journal, <- app_assoc. reflexivity.
    + reflexivity.
    + apply Peek_after_Remove.
    + destruct (redis.Get (redisClient c) k) as [val [err|]]; cbn [fallback_result].
      * intros _. apply Peek_after_Remove.
      * intros H. contradiction H. reflexivity.
  - intros now1. destruct (Z.lt_ge_cases now1 (expiresAt e)) as [Hlt|Hge].
    + rewrite (Get_hit c k e now1 now2 Hpeek Hlt). cbn [snd].
      split; [intros _; exact Hlt|intros _].
      apply calls_since_app. reflexivity.
    + rewrite (Get_expired c k e now1 now2 Hpeek Hge).
      split; [|lia]. intros Hcalls. exfalso.
      erewrite calls_since_app in Hcalls.
      2:{ rewrite Get_redis_journal, <- app_assoc. reflexivity. }
      discriminate Hcalls.
  - intros now1 Hlt. rewrite (Get_hit c k e now1 now2 Hpeek Hlt).
    cbn [fst snd memCache]. split; [reflexivity|].
    rewrite Peek_after_Get. exact Hpeek.
Qed.

Lemma expiry_comparison_is_strict_witness :
  let c := Cache_Set sample_cache "x" [x31] 0 in
  lru.Peek "x" (memCache c) = Some (mkEntry [x31] 60) /\
  fst (Cache_Get c "x" 60 60) = fallback_result (redis.Get (redisClient c) "x").
Proof.
  intros c.
  assert (Hpeek : lru.Peek "x" (memCache c) = Some (mkEntry [x31] 60))
    by (vm_compute; reflexivity).
  split; [exact Hpeek|].
  exact (proj1 (proj1 (expiry_comparison_is_strict c "x" _ 60 Hpeek))).
Defined.

(** ** Results of [Get] *)

Lemma Get_result (c : Cache) (k : string) (now1 now2 : Z) :
  fst (Cache_Get c k now1 now2)
  = match local_fresh c k now1 with
    | Some v => (v, None)
    | None => fallback_result (redis.Get (redisClient c) k)
    end.
Proof.
  destruct (local_fresh c k now1) as [v|] eqn:Hfresh.
  - unfold local_fresh in Hfresh.
    destruct (lru.Peek k (memCache c)) as [e|] eqn:Hpeek; [|discriminate].
    destruct (now1 <? expiresAt e) eqn:Hlt; [|discriminate].
    injection Hfresh as <-. apply Z.ltb_lt in Hlt.
    rewrite (Get_hit c k e now1 now2 Hpeek Hlt). reflexivity.
  - apply (Get_fallback c k now1 now2 Hfresh).
Qed.

Lemma redis_Get_error (r : redis.Client) (k : string) (err : error) :
  snd (redis.Get r k) = Some err ->
  err = redis.Nil \/ exists msg, err = OpError msg.
Proof.
  unfold redis.Get. destruct (redis.fault r) as [msg|]; simpl.
  - intros [= <-]. right. eauto.
  - destruct (redis.store r !! k); simpl; [discriminate|].
    intros [= <-]. left. reflexivity.
Qed.

(** C4. [Get] has exactly one of three results: a value with a nil error,
    [ErrNotFound], or the wrapped error of the remote store.  [ErrNotFound]
    is returned exactly when the local layer has nothing fresh and the
    remote store answers [redis.Nil]; any other error [err] of the remote
    lookup comes back wrapped, and the wrapped error is not [ErrNotFound]
    for [errors.Is]. *)
Theorem get_has_three_outcomes (c : Cache) (k : string) (now1 now2 : Z) :
  let res := fst (Cache_Get c k now1 now2) in
  let reply := redis.Get (redisClient c) k in
  (is_value res /\ ~ is_not_found res /\ ~ is_remote_error res \/
   ~ is_value res /\ is_not_found res /\ ~ is_remote_error res \/
   ~ is_value res /\ ~ is_not_found res /\ is_remote_error res) /\
  (is_not_found res <->
   local_fresh c k now1 = None /\ snd reply = Some redis.Nil) /\
  (is_value res <-> local_fresh c k now1 <> None \/ snd reply = None) /\
  (forall err,
     local_fresh c k now1 = None -> snd reply = Some err -> err <> redis.Nil ->
     res = ([], Some (Errorf "redis GET error" err)) /\
     errors_Is (Errorf "redis GET error" err) ErrNotFound = false).
Proof.
  intros res reply. subst res reply. rewrite Get_result.
  unfold is_value, is_not_found, is_remote_error.
  destruct (local_fresh c k now1) as [v|].
  - cbn [snd]. split; [|split; [|split]].
    + left. split; [reflexivity|]. split; [discriminate|].
      intros (err & _ & H). discriminate H.
    + split; [discriminate|]. intros [H _]. discriminate H.
    + split; [intros _; left; discriminate|reflexivity].
    + intros err H. discriminate H.
  - pose proof (redis_Get_error (redisClient c) k) as Herr.
    destruct (redis.Get (redisClient c) k) as [val [err|]]; cbn [snd fallback_result] in *.
    + destruct (decide (err = redis.Nil)) as [Heq|Hne].
      * split; [|split; [|split]].
        -- right. left. split; [discriminate|]. split; [reflexivity|].
           intros (err' & _ & H). discriminate H.
        -- split; [intros _; split; congruence|reflexivity].
        -- split; [discriminate|]. intros [H|H]; [contradiction|discriminate].
        -- intros err' _ [= <-] Hne. contradiction.
      * split; [|split; [|split]].
        -- right. right. split; [discriminate|]. split; [discriminate|].
           exists err. split; [exact Hne|reflexivity].
        -- split; [discriminate|]. intros [_ [= H]]. contradiction.
        -- split; [discriminate|]. intros [H|H]; [contradiction|discriminate].
        -- intros err' _ [= <-] _. split; [reflexivity|].
           destruct (Herr err eq_refl) as [H|(msg & ->)]; [contradiction|].
           reflexivity.
    + split; [|split; [|split]].
      * left. split; [reflexivity|]. split; [discriminate|].
        intros (err & _ & H). discriminate H.
      * split; [discriminate|]. intros [_ H]. discriminate H.
      * split; [intros _; right|]; reflexivity.
      * intros err _ H. discriminate H.
Qed.

Lemma get_has_three_outcomes_witness :
  local_fresh sample_cache_down "k2" 0 = None /\
  snd (redis.Get (redisClient sample_cache_down) "k2")
  = Some (OpError "dial tcp: connection refused") /\
  OpError "dial tcp: connection refused" <> redis.Nil /\
  fst (Cache_Get sample_cache_down "k2" 0 0)
  = ([], Some (Errorf "redis GET error" (OpError "dial tcp: connection refused"))).
Proof.
  assert (H1 : local_fresh sample_cache_down "k2" 0 = None) by reflexivity.
  assert (H2 : snd (redis.Get (redisClient sample_cache_down) "k2")
               = Some (OpError "dial tcp: connection refused")) by reflexivity.
  assert (H3 : OpError "dial tcp: connection refused" <> redis.Nil) by discriminate.
  split; [exact H1|]. split; [exact H2|]. split; [exact H3|].
  exact (proj1 (proj2 (proj2 (proj2 (get_has_three_outcomes sample_cache_down "k2" 0 0)))
                 _ H1 H2 H3)).
Defined.

(** C8. [Get] leaves the remote store as it found it, contents and
    time-to-live of every key included, and sends it no SET and no DEL,
    also when it repopulates the local layer. *)
Theorem get_never_writes_remote (c : Cache) (k : string) (now1 now2 : Z) :
  let c' := snd (Cache_Get c k now1 now2) in
  redisClient c' = redisClient c /\
  redis.store (redisClient c') !! k = redis.store (redisClient c) !! k /\
  Forall (fun ev => remote_write ev = false) (calls_since c c').
Proof.
  intros c'. subst c'. rewrite Get_client.
  split; [reflexivity|]. split; [reflexivity|].
  unfold Cache_Get.
  destruct (lru.Get k (memCache c)) as [[e|] mem].
  - destruct (now1 <? expiresAt e).
    + erewrite calls_since_app by reflexivity. repeat constructor.
    + erewrite calls_since_app.
      2:{ rewrite Get_redis_journal, <- !app_assoc. reflexivity. }
      destruct (redis.Get (redisClient c) k) as [val [err|]]; repeat constructor.
  - erewrite calls_since_app.
    2:{ rewrite Get_redis_journal, <- !app_assoc. reflexivity. }
    destruct (redis.Get (redisClient c) k) as [val [err|]]; repeat constructor.
Qed.

(** ** Construction *)

Lemma New_success (net : string -> redis.Client) (opts : Options) (c : Cache) :
  fst (New net opts) = Some c ->
  snd (New net opts) = None /\
  0 < MaxMemEntries opts /\
  memCache c = lru.mk (MaxMemEntries opts) [] /\
  defaultTTL c = DefaultTTL opts.
Proof.
  unfold New, lru.New.
  destruct (MaxMemEntries opts <=? 0) eqn:Hcap; [discriminate|].
  apply Z.leb_gt in Hcap.
  destruct (RedisClient opts) as [r|].
  - intros [= <-]. repeat split; [exact Hcap].
  - destruct (redis.Ping (net (RedisAddr opts))); [discriminate|].
    intros [= <-]. repeat split; [exact Hcap].
Qed.

(** C5. [New] with a capacity that is not positive returns a
    configuration error and no cache; when [New] returns a cache there is no
    error, and the local layer of that cache is empty: [Stats] reports
    length 0 and no keys. *)
Theorem new_validates_capacity (net : string -> redis.Client) (opts : Options) :
  (MaxMemEntries opts <= 0 ->
   exists err, New net opts = (None, Some err) /\ ConfigurationError err) /\
  (forall c, fst (New net opts) = Some c ->
     snd (New net opts) = None /\
     lru.items (memCache c) = [] /\
     MemLen (Cache_Stats c) = 0 /\
     MemKeys (Cache_Stats c) = []).
Proof.
  split.
  - intros Hcap. unfold New, lru.New.
    apply Z.leb_le in Hcap. rewrite Hcap.
    eexists. split; [reflexivity|]. eexists. reflexivity.
  - intros c Hnew. destruct (New_success net opts c Hnew) as (Herr & _ & Hmem & _).
    split; [exact Herr|]. unfold Cache_Stats, lru.Len, lru.Keys.
    rewrite Hmem. repeat split.
Qed.

Lemma new_validates_capacity_witness :
  (0 <= 0 /\
   exists err, New sample_net (mkOptions "localhost:6379" 60 0 None)
               = (None, Some err) /\ ConfigurationError err) /\
  (fst (New sample_net (sample_options 60))
   = Some (cache.mk (lru.mk 2 []) sample_store 60 [RedisPing]) /\
   MemLen (Cache_Stats (cache.mk (lru.mk 2 []) sample_store 60 [RedisPing])) = 0).
Proof.
  split.
  - split; [apply Z.le_refl|].
    exact (proj1 (new_validates_capacity sample_net
                    (mkOptions "localhost:6379" 60 0 None)) (Z.le_refl 0)).
  - assert (H : fst (New sample_net (sample_options 60))
                = Some (cache.mk (lru.mk 2 []) sample_store 60 [RedisPing]))
      by reflexivity.
    split; [exact H|].
    exact (proj1 (proj2 (proj2
             (proj2 (new_validates_capacity sample_net (sample_options 60)) _ H)))).
Defined.

(** ** Purge *)

(** C6, as stated, fails: with the remote store out of reach, [Set] then
    [Purge] then [Get] ends in the wrapped transport error, not in
    [ErrNotFound]. *)
Lemma purge_then_get_unreachable_store :
  fst (Cache_Get (Cache_Purge (Cache_Set sample_cache_down "x" [x31] 0) "x") "x" 1 1)
  = ([], Some (Errorf "redis GET error" (OpError "dial tcp: connection refused")))
  /\
  fst (Cache_Get (Cache_Purge (Cache_Set sample_cache_down "x" [x31] 0) "x") "x" 1 1)
  <> ([], Some ErrNotFound).
Proof. split; [reflexivity|discriminate]. Qed.

(** C6, amended. While the remote store can be reached, [Purge(k)] after
    [Set(k, v)] leaves [k] in neither layer and the next [Get(k)] returns
    [ErrNotFound]. *)
Theorem purge_then_get_not_found
    (c : Cache) (k : string) (v : list byte) (now0 now1 now2 : Z) :
  redis.fault (redisClient c) = None ->
  let c2 := Cache_Purge (Cache_Set c k v now0) k in
  lru.Peek k (memCache c2) = None /\
  redis.store (redisClient c2) !! k = None /\
  redis.fault (redisClient c2) = None /\
  fst (Cache_Get c2 k now1 now2) = ([], Some ErrNotFound).
Proof.
  intros Hup c2.
  assert (Hlocal : lru.Peek k (memCache c2) = None) by apply Peek_after_Remove.
  assert (Hremote : redis.store (redisClient c2) !! k = None
                    /\ redis.fault (redisClient c2) = None).
  { subst c2. unfold Cache_Purge, Cache_Set, redis.Del, redis.Set_.
    cbn [redisClient]. rewrite Hup. cbn [snd redis.fault redis.store].
    split; [apply lookup_delete_eq|reflexivity]. }
  destruct Hremote as [Hstore Hfault].
  split; [exact Hlocal|]. split; [exact Hstore|]. split; [exact Hfault|].
  rewrite Get_result. unfold local_fresh. rewrite Hlocal.
  unfold redis.Get. rewrite Hfault, Hstore. reflexivity.
Qed.

Lemma purge_then_get_not_found_witness :
  redis.fault (redisClient sample_cache) = None /\
  fst (Cache_Get (Cache_Purge (Cache_Set sample_cache "x" [x31] 0) "x") "x" 1 1)
  = ([], Some ErrNotFound).
Proof.
  split; [reflexivity|].
  exact (proj2 (proj2 (proj2
           (purge_then_get_not_found sample_cache "x" [x31] 0 1 1 eq_refl)))).
Defined.

(** ** Statistics *)

(** C10. Whatever [Get], [Set] and [Purge] calls came before, and whatever
    happened to the remote store, [Stats] reports zero hits, zero misses and
    zero evictions; only the length and the keys of the local layer are
    filled in. *)
Theorem stats_counters_are_zero (c : Cache) (ops : list op) :
  let s := Cache_Stats (run c ops) in
  MemHits s = 0 /\ MemMisses s = 0 /\ MemEvicts s = 0 /\
  MemLen s = lru.Len (memCache (run c ops)) /\
  MemKeys s = lru.Keys (memCache (run c ops)).
Proof. intros s. subst s. unfold Cache_Stats. cbn. repeat split. Qed.

(** ** A zero default TTL *)

Section zero_ttl.
Implicit Types (c : Cache) (k : string) (t : Z).

Lemma assoc_In (V : Type) k (l : list (string * V)) (v : V) :
  lru.assoc k l = Some v -> In (k, v) l.
Proof.
  induction l as [|[k' v'] l IH]; simpl; [discriminate|].
  destruct (String.eqb k' k) eqn:E.
  - apply String.eqb_eq in E. intros [= <-]. left. congruence.
  - intros H. right. exact (IH H).
Qed.

Lemma all_stale_mono c t t' : all_stale c t -> t <= t' -> all_stale c t'.
Proof. intros H Hle id entry Hin. specialize (H id entry Hin). lia. Qed.

Lemma all_stale_local_fresh c t k now :
  all_stale c t -> t <= now -> local_fresh c k now = None.
Proof.
  intros Hstale Hle. apply local_fresh_None.
  destruct (lru.Peek k (memCache c)) as [e|] eqn:Hpeek; [right|left; reflexivity].
  exists e. split; [reflexivity|].
  specialize (Hstale k e (assoc_In _ _ _ _ Hpeek)). lia.
Qed.

Lemma all_stale_New net opts c t :
  fst (New net opts) = Some c -> all_stale c t.
Proof.
  intros Hnew. destruct (New_success net opts c Hnew) as (_ & _ & Hmem & _).
  intros id entry. rewrite Hmem. simpl. tauto.
Qed.

Lemma all_stale_Set c t k v now :
  defaultTTL c = 0 -> all_stale c t -> t <= now ->
  all_stale (Cache_Set c k v now) now.
Proof.
  intros Httl Hstale Hle id entry. unfold Cache_Set. cbn [memCache].
  intros Hin. apply in_items_Add in Hin. destruct Hin as [[= -> ->]|Hin].
  - simpl. lia.
  - specialize (Hstale id entry Hin). lia.
Qed.

Lemma all_stale_Purge c t k : all_stale c t -> all_stale (Cache_Purge c k) t.
Proof.
  intros Hstale id entry. unfold Cache_Purge. cbn [memCache].
  intros Hin. apply in_items_Remove in Hin. exact (Hstale id entry Hin).
Qed.

Lemma all_stale_Get_redis c mem j k t now :
  defaultTTL c = 0 ->
  (forall id entry, In (id, entry) (lru.items mem) -> expiresAt entry <= t) ->
  t <= now ->
  all_stale (snd (Get_redis c mem j k now)) now.
Proof.
  intros Httl Hmem Hle id entry. rewrite Get_redis_mem.
  destruct (redis.Get (redisClient c) k) as [val [err|]]; intros Hin.
  - specialize (Hmem id entry Hin). lia.
  - apply in_items_Add in Hin. destruct Hin as [[= -> ->]|Hin].
    + simpl. lia.
    + specialize (Hmem id entry Hin). lia.
Qed.

Lemma all_stale_Get c t k now1 now2 :
  defaultTTL c = 0 -> all_stale c t -> t <= now1 -> now1 <= now2 ->
  all_stale (snd (Cache_Get c k now1 now2)) now2.
Proof.
  intros Httl Hstale Hle1 Hle2.
  pose proof (all_stale_local_fresh c t k now1 Hstale Hle1) as Hfresh.
  apply local_fresh_None in Hfresh. destruct Hfresh as [Habs|(e & Hpeek & He)].
  - rewrite (Get_absent_local _ _ _ _ Habs).
    apply (all_stale_Get_redis c _ _ k t now2 Httl); [exact Hstale|lia].
  - rewrite (Get_expired _ _ _ _ _ Hpeek He).
    apply (all_stale_Get_redis c _ _ k t now2 Httl); [|lia].
    intros id entry Hin. apply in_items_Remove in Hin. exact (Hstale id entry Hin).
Qed.

Lemma apply_op_ttl c o : defaultTTL (apply_op c o) = defaultTTL c.
Proof. destruct o; simpl; [apply Get_ttl|reflexivity..]. Qed.

(** Along a history whose clock never goes backwards, a cache with a zero
    default TTL holds stale entries only. *)
Lemma all_stale_run ops : forall c t,
  defaultTTL c = 0 -> all_stale c t -> chronological t ops ->
  all_stale (run c ops) (last_reading t ops) /\ defaultTTL (run c ops) = 0.
Proof.
  induction ops as [|o ops IH]; intros c t Httl Hstale Hchron.
  - split; assumption.
  - assert (Httl' : defaultTTL (apply_op c o) = 0)
      by (rewrite apply_op_ttl; exact Httl).
    destruct o as [id now1 now2|id v now|id|r]; cbn [run fold_left] in *;
      cbn [chronological last_reading] in *.
    + destruct Hchron as (H1 & H2 & Hrest).
      apply (IH _ now2 Httl'); [|exact Hrest].
      apply (all_stale_Get c t id now1 now2); assumption.
    + destruct Hchron as (H1 & Hrest).
      apply (IH _ now Httl'); [|exact Hrest].
      apply (all_stale_Set c t id v now); assumption.
    + apply (IH _ t Httl'); [|exact Hchron].
      apply all_stale_Purge. exact Hstale.
    + apply (IH _ t Httl'); [|exact Hchron]. exact Hstale.
Qed.

End zero_ttl.

(** C7. With a default TTL of zero, after any history of [Set], [Get] and
    [Purge] calls (and of changes of the remote store) whose clock never
    goes backwards, every local entry is stale; a [Get] at that time or
    later finds nothing fresh in the local layer, sends a GET to the remote
    store and answers from its reply alone. *)
Theorem zero_ttl_disables_local_layer
    (net : string -> redis.Client) (opts : Options) (c0 : Cache)
    (ops : list op) (t0 : Z) (k : string) (now1 now2 : Z) :
  fst (New net opts) = Some c0 ->
  DefaultTTL opts = 0 ->
  chronological t0 ops ->
  last_reading t0 ops <= now1 ->
  let c := run c0 ops in
  all_stale c now1 /\
  local_fresh c k now1 = None /\
  fst (Cache_Get c k now1 now2) = fallback_result (redis.Get (redisClient c) k) /\
  In (RedisGet k) (calls_since c (snd (Cache_Get c k now1 now2))).
Proof.
  intros Hnew Httl Hchron Hlast c.
  destruct (New_success net opts c0 Hnew) as (_ & _ & _ & Hd).
  assert (Hzero : defaultTTL c0 = 0) by congruence.
  destruct (all_stale_run ops c0 t0 Hzero (all_stale_New net opts c0 t0 Hnew) Hchron)
    as [Hstale _].
  fold c in Hstale.
  pose proof (all_stale_local_fresh c _ k now1 Hstale Hlast) as Hfresh.
  split; [exact (all_stale_mono c _ _ Hstale Hlast)|].
  split; [exact Hfresh|].
  exact (Get_fallback c k now1 now2 Hfresh).
Qed.

Lemma zero_ttl_disables_local_layer_witness :
  let c0 := cache.mk (lru.mk 2 []) sample_store 0 [RedisPing] in
  let ops := [OpSet "x" [x31] 10; OpGet "x" 10 11; OpSet "y" [x32] 12] in
  fst (New sample_net (sample_options 0)) = Some c0 /\
  DefaultTTL (sample_options 0) = 0 /\
  chronological 0 ops /\
  last_reading 0 ops <= 12 /\
  fst (Cache_Get (run c0 ops) "y" 12 12) = ([x32], None) /\
  In (RedisGet "y") (calls_since (run c0 ops) (snd (Cache_Get (run c0 ops) "y" 12 12))).
Proof.
  intros c0 ops.
  assert (H1 : fst (New sample_net (sample_options 0)) = Some c0) by reflexivity.
  assert (H2 : DefaultTTL (sample_options 0) = 0) by reflexivity.
  assert (H3 : chronological 0 ops) by (simpl; lia).
  assert (H4 : last_reading 0 ops <= 12) by (simpl; lia).
  pose proof (zero_ttl_disables_local_layer sample_net (sample_options 0) c0 ops 0
                "y" 12 12 H1 H2 H3 H4) as H.
  split; [exact H1|]. split; [exact H2|]. split; [exact H3|]. split; [exact H4|].
  split; [exact (proj1 (proj2 (proj2 H)))|exact (proj2 (proj2 (proj2 H)))].
Defined.

(** ** The capacity of a constructed cache *)

Lemma apply_op_size (c : Cache) (o : op) :
  lru.size (memCache (apply_op c o)) = lru.size (memCache c).
Proof.
  destruct o; simpl; [apply Get_size|apply size_Add|reflexivity..].
Qed.

(** The hypothesis [0 < lru.size (memCache c)] of the statements above holds
    in every state that a cache returned by [New] can reach. *)
Lemma capacity_positive (net : string -> redis.Client) (opts : Options)
    (c0 : Cache) (ops : list op) :
  fst (New net opts) = Some c0 -> 0 < lru.size (memCache (run c0 ops)).
Proof.
  intros Hnew. destruct (New_success net opts c0 Hnew) as (_ & Hcap & Hmem & _).
  assert (H0 : 0 < lru.size (memCache c0)) by (rewrite Hmem; exact Hcap).
  clear Hnew Hmem. revert c0 H0.
  induction ops as [|o ops IH]; intros c0 H0; [exact H0|].
  apply IH. rewrite apply_op_size. exact H0.
Qed.

(** ** More about the LRU cache *)

Section lru_lookup.
Context {V : Type}.
Implicit Types (k : string) (v : V) (l : list (string * V)) (m : lru.Cache V).

Lemma assoc_unlink_ne k k' l :
  k <> k' -> lru.assoc k' (lru.unlink k l) = lru.assoc k' l.
Proof.
  intros Hne. induction l as [|[k0 v0] l IH]; simpl; [reflexivity|].
  destruct (String.eqb k0 k) eqn:E; simpl.
  - apply String.eqb_eq in E. subst k0.
    destruct (String.eqb k k') eqn:E'; [|exact IH].
    apply String.eqb_eq in E'. contradiction.
  - rewrite IH. reflexivity.
Qed.

Lemma assoc_unlink_inv k k' l v :
  lru.assoc k' (lru.unlink k l) = Some v -> k' <> k /\ lru.assoc k' l = Some v.
Proof.
  intros H. assert (Hne : k' <> k).
  { intros ->. rewrite assoc_unlink_eq in H. discriminate. }
  split; [exact Hne|]. rewrite assoc_unlink_ne in H by congruence. exact H.
Qed.

Lemma assoc_removelast k l v :
  lru.assoc k (removelast l) = Some v -> lru.assoc k l = Some v.
Proof.
  induction l as [|[k0 v0] l IH]; [simpl; discriminate|].
  destruct l as [|p l']; [simpl; discriminate|].
  change (removelast ((k0, v0) :: p :: l')) with ((k0, v0) :: removelast (p :: l')).
  cbn [lru.assoc]. destruct (String.eqb k0 k); [tauto|]. exact IH.
Qed.

Lemma Peek_Get_any k k' m : lru.Peek k' (snd (lru.Get k m)) = lru.Peek k' m.
Proof.
  destruct (decide (k' = k)) as [->|Hne]; [apply Peek_after_Get|].
  unfold lru.Get, lru.Peek.
  destruct (lru.assoc k (lru.items m)) eqn:E; [|reflexivity].
  cbn [snd lru.items lru.assoc].
  destruct (String.eqb k k') eqn:E'.
  - apply String.eqb_eq in E'. congruence.
  - apply assoc_unlink_ne. congruence.
Qed.

Lemma Peek_Remove_ne k k' m :
  k <> k' -> lru.Peek k' (snd (lru.Remove k m)) = lru.Peek k' m.
Proof. intros Hne. unfold lru.Remove, lru.Peek. simpl. apply assoc_unlink_ne, Hne. Qed.

Lemma Peek_Remove_inv k k' m v :
  lru.Peek k' (snd (lru.Remove k m)) = Some v -> k' <> k /\ lru.Peek k' m = Some v.
Proof. unfold lru.Remove, lru.Peek. simpl. apply assoc_unlink_inv. Qed.

(** Whatever the capacity, an entry found after [Add k v] is the new one
    under [k] or an old one under another key. *)
Lemma Peek_Add_inv k k' v v' m :
  lru.Peek k' (snd (lru.Add k v m)) = Some v' ->
  (k' = k /\ v' = v) \/ (k' <> k /\ lru.Peek k' m = Some v').
Proof.
  assert (Hcons : forall l, lru.assoc k' ((k, v) :: l) = Some v' ->
            (k' = k /\ v' = v) \/ (k' <> k /\ lru.assoc k' l = Some v')).
  { intros l. cbn [lru.assoc]. destruct (String.eqb k k') eqn:E.
    - apply String.eqb_eq in E. intros [= <-]. left. split; congruence.
    - apply String.eqb_neq in E. intros H. right. split; [congruence|exact H]. }
  unfold lru.Add, lru.Peek.
  destruct (lru.assoc k (lru.items m)) eqn:Hk; cbn [snd lru.items].
  - intros H. apply Hcons in H. destruct H as [H|[Hne H]]; [left; exact H|right].
    split; [exact Hne|]. apply assoc_unlink_inv in H. tauto.
  - destruct (lru.size m <? _); cbn [snd lru.items]; intros H.
    + apply assoc_removelast in H. apply Hcons in H. exact H.
    + apply Hcons in H. exact H.
Qed.

Lemma Remove_absent k m : lru.Peek k m = None -> snd (lru.Remove k m) = m.
Proof.
  unfold lru.Remove, lru.Peek. intros H. simpl.
  rewrite (unlink_absent _ _ H). destruct m; reflexivity.
Qed.

End lru_lookup.

(** ** What a [Get] touches *)

Lemma Get_error_state (c : Cache) (k : string) (now1 now2 : Z) :
  snd (fst (Cache_Get c k now1 now2)) <> None ->
  memCache (snd (Cache_Get c k now1 now2)) = snd (lru.Remove k (memCache c)).
Proof.
  intros Herr. rewrite Get_result in Herr.
  destruct (local_fresh c k now1) as [v|] eqn:Hfresh; [contradiction Herr; reflexivity|].
  assert (Hreply : snd (redis.Get (redisClient c) k) <> None).
  { intros H. apply Herr. destruct (redis.Get (redisClient c) k) as [val [err|]];
      [discriminate H|reflexivity]. }
  apply local_fresh_None in Hfresh. destruct Hfresh as [Habs|(e & Hpeek & Hle)].
  - rewrite (Get_absent_local _ _ _ _ Habs), Get_redis_mem, (Remove_absent _ _ Habs).
    destruct (redis.Get (redisClient c) k) as [val [err|]];
      [reflexivity|contradiction Hreply; reflexivity].
  - rewrite (Get_expired _ _ _ _ _ Hpeek Hle), Get_redis_mem.
    destruct (redis.Get (redisClient c) k) as [val [err|]];
      [reflexivity|contradiction Hreply; reflexivity].
Qed.

(** X13. A [Get] that ends in an error (not found, or a failure of the
    remote store) caches nothing: afterwards the local layer is the one
    before the call without [k], so every other key keeps its entry and an
    expired entry of [k] is gone; the remote store is as before. *)
Theorem failed_get_caches_nothing (c : Cache) (k : string) (now1 now2 : Z) :
  snd (fst (Cache_Get c k now1 now2)) <> None ->
  let c' := snd (Cache_Get c k now1 now2) in
  memCache c' = snd (lru.Remove k (memCache c)) /\
  lru.Peek k (memCache c') = None /\
  (forall k', k' <> k -> lru.Peek k' (memCache c') = lru.Peek k' (memCache c)) /\
  (lru.Peek k (memCache c) = None -> memCache c' = memCache c) /\
  redisClient c' = redisClient c.
Proof.
  intros Herr c'. subst c'.
  rewrite (Get_error_state c k now1 now2 Herr), Get_client.
  split; [reflexivity|]. split; [apply Peek_after_Remove|].
  split; [intros k' Hne; apply Peek_Remove_ne; congruence|].
  split; [apply Remove_absent|reflexivity].
Qed.

Lemma failed_get_caches_nothing_witness :
  snd (fst (Cache_Get sample_cache "nope" 0 0)) <> None /\
  memCache (snd (Cache_Get sample_cache "nope" 0 0))
  = snd (lru.Remove "nope" (memCache sample_cache)).
Proof.
  assert (H : snd (fst (Cache_Get sample_cache "nope" 0 0)) <> None) by discriminate.
  split; [exact H|].
  exact (proj1 (failed_get_caches_nothing sample_cache "nope" 0 0 H)).
Defined.

(** X15. [Get] talks to the remote store at most once: it sends no command
    when the local layer has a fresh entry, and exactly one GET of [k]
    otherwise. *)
Theorem get_remote_calls (c : Cache) (k : string) (now1 now2 : Z) :
  filter (fun ev => remote_call ev = true)
    (calls_since c (snd (Cache_Get c k now1 now2)))
  = match local_fresh c k now1 with
    | Some _ => []
    | None => [RedisGet k]
    end.
Proof.
  destruct (local_fresh c k now1) as [v|] eqn:Hfresh.
  - unfold local_fresh in Hfresh.
    destruct (lru.Peek k (memCache c)) as [e|] eqn:Hpeek; [|discriminate].
    destruct (now1 <? expiresAt e) eqn:Hlt; [|discriminate].
    apply Z.ltb_lt in Hlt. rewrite (Get_hit c k e now1 now2 Hpeek Hlt).
    erewrite calls_since_app by reflexivity. reflexivity.
  - apply local_fresh_None in Hfresh. destruct Hfresh as [Habs|(e & Hpeek & Hle)].
    + rewrite (Get_absent_local _ _ _ _ Habs).
      erewrite calls_since_app.
      2:{ rewrite Get_redis_journal, <- app_assoc. reflexivity. }
      destruct (redis.Get (redisClient c) k) as [val [err|]]; reflexivity.
    + rewrite (Get_expired _ _ _ _ _ Hpeek Hle).
      erewrite calls_since_app.
      2:{ rewrite Get_redis_journal, <- app_assoc. reflexivity. }
      destruct (redis.Get (redisClient c) k) as [val [err|]]; reflexivity.
Qed.

(** ** More about the construction *)

(** X1. [New] returns either a cache or an error, never both and never
    neither; it returns a cache exactly when the capacity is positive and
    either a client was supplied or the store dialled at [RedisAddr] answers
    the ping. *)
Theorem new_succeeds_iff (net : string -> redis.Client) (opts : Options) :
  (fst (New net opts) = None <-> snd (New net opts) <> None) /\
  (fst (New net opts) <> None <->
   0 < MaxMemEntries opts /\
   (RedisClient opts <> None \/ redis.fault (net (RedisAddr opts)) = None)).
Proof.
  unfold New, lru.New, redis.Ping.
  destruct (MaxMemEntries opts <=? 0) eqn:Hcap.
  - apply Z.leb_le in Hcap. cbn [fst snd]. split.
    + split; [discriminate|reflexivity].
    + split; [intros H; contradiction H; reflexivity|intros [H _]; lia].
  - apply Z.leb_gt in Hcap. destruct (RedisClient opts) as [r|]; cbn [fst snd].
    + split; [split; [discriminate|intros H; contradiction H; reflexivity]|].
      split; [intros _; split; [exact Hcap|left; discriminate]|discriminate].
    + destruct (redis.fault (net (RedisAddr opts))) as [msg|]; cbn [fst snd].
      * split; [split; [discriminate|reflexivity]|].
        split; [intros H; contradiction H; reflexivity|].
        intros [_ [H|H]]; [contradiction H; reflexivity|discriminate H].
      * split; [split; [discriminate|intros H; contradiction H; reflexivity]|].
        split; [intros _; split; [exact Hcap|right; reflexivity]|discriminate].
Qed.

(** X2. A supplied client is taken as it is and never pinged, so [New]
    succeeds with it even when its store is out of reach.  Without a
    supplied client an unreachable store makes [New] fail with the wrapped
    ping error, a connection error and not a configuration error; the
    capacity is checked first, so a capacity that is not positive is
    reported even when the store is out of reach too. *)
Theorem new_connection_behaviour (net : string -> redis.Client) (opts : Options) :
  (forall r, 0 < MaxMemEntries opts -> RedisClient opts = Some r ->
     New net opts
     = (Some (cache.mk (lru.mk (MaxMemEntries opts) []) r (DefaultTTL opts) []),
        None)) /\
  (forall msg, 0 < MaxMemEntries opts -> RedisClient opts = None ->
     redis.fault (net (RedisAddr opts)) = Some msg ->
     exists err, New net opts = (None, Some err) /\
       err = Errorf "failed to connect to redis" (OpError msg) /\
       ConnectionError err /\ ~ ConfigurationError err) /\
  (MaxMemEntries opts <= 0 ->
     exists err, New net opts = (None, Some err) /\
       ConfigurationError err /\ ~ ConnectionError err).
Proof.
  unfold New, lru.New, redis.Ping. split; [|split].
  - intros r Hcap Hr. apply Z.leb_gt in Hcap. rewrite Hcap, Hr. reflexivity.
  - intros msg Hcap Hr Hfault. apply Z.leb_gt in Hcap. rewrite Hcap, Hr, Hfault.
    eexists. split; [reflexivity|]. split; [reflexivity|].
    split; [eexists; reflexivity|]. intros [inner H]. discriminate H.
  - intros Hcap. apply Z.leb_le in Hcap. rewrite Hcap.
    eexists. split; [reflexivity|].
    split; [eexists; reflexivity|]. intros [inner H]. discriminate H.
Qed.

Lemma new_connection_behaviour_witness :
  0 < MaxMemEntries (mkOptions "localhost:6379" 60 2 (Some sample_down)) /\
  New sample_net (mkOptions "localhost:6379" 60 2 (Some sample_down))
  = (Some (cache.mk (lru.mk 2 []) sample_down 60 []), None).
Proof.
  assert (H : 0 < MaxMemEntries (mkOptions "localhost:6379" 60 2 (Some sample_down)))
    by reflexivity.
  split; [exact H|].
  exact (proj1 (new_connection_behaviour sample_net
                  (mkOptions "localhost:6379" 60 2 (Some sample_down)))
           sample_down H eq_refl).
Defined.

(** ** More about [Purge] *)

(** X6. [Purge] is idempotent on both layers, and purging a key that
    neither layer holds changes neither layer, whether or not the remote
    store can be reached. *)
Theorem purge_idempotent (c : Cache) (k : string) :
  (memCache (Cache_Purge (Cache_Purge c k) k) = memCache (Cache_Purge c k) /\
   redisClient (Cache_Purge (Cache_Purge c k) k) = redisClient (Cache_Purge c k)) /\
  (lru.Peek k (memCache c) = None ->
   redis.store (redisClient c) !! k = None ->
   memCache (Cache_Purge c k) = memCache c /\
   redisClient (Cache_Purge c k) = redisClient c).
Proof.
  split.
  - unfold Cache_Purge, lru.Remove, redis.Del. cbn [memCache redisClient snd lru.items lru.size].
    rewrite unlink_idem. split; [reflexivity|].
    destruct (redis.fault (redisClient c)) as [msg|] eqn:Hf; cbn [snd].
    + rewrite Hf. reflexivity.
    + cbn [redis.fault redis.store]. rewrite delete_delete_eq. reflexivity.
  - intros Hlocal Hremote. unfold Cache_Purge. cbn [memCache redisClient].
    split; [apply Remove_absent, Hlocal|].
    unfold redis.Del. destruct (redis.fault (redisClient c)) as [msg|] eqn:Hf;
      cbn [snd]; [reflexivity|].
    rewrite (delete_id _ _ Hremote), <- Hf. destruct (redisClient c); reflexivity.
Qed.

Lemma purge_idempotent_witness :
  lru.Peek "nope" (memCache sample_cache) = None /\
  redis.store (redisClient sample_cache) !! "nope" = None /\
  memCache (Cache_Purge sample_cache "nope") = memCache sample_cache /\
  redisClient (Cache_Purge sample_cache "nope") = redisClient sample_cache.
Proof.
  assert (H1 : lru.Peek "nope" (memCache sample_cache) = None) by reflexivity.
  assert (H2 : redis.store (redisClient sample_cache) !! "nope" = None) by reflexivity.
  split; [exact H1|]. split; [exact H2|].
  exact (proj2 (purge_idempotent sample_cache "nope") H1 H2).
Defined.

Lemma redis_Get_Del_ne (r : redis.Client) (k k' : string) :
  k <> k' -> redis.Get (snd (redis.Del r k)) k' = redis.Get r k'.
Proof.
  intros Hne. unfold redis.Del.
  destruct (redis.fault r) as [msg|] eqn:Hf; cbn [snd]; [reflexivity|].
  unfold redis.Get. cbn [redis.fault redis.store].
  rewrite Hf, lookup_delete_ne by exact Hne. reflexivity.
Qed.

(** X7. [Purge(k)] leaves every other key alone: its local entry, what the
    remote store holds for it, and therefore the result of a [Get] of it. *)
Theorem purge_spares_other_keys (c : Cache) (k k' : string) (now1 now2 : Z) :
  k' <> k ->
  let c' := Cache_Purge c k in
  lru.Peek k' (memCache c') = lru.Peek k' (memCache c) /\
  redis.store (redisClient c') !! k' = redis.store (redisClient c) !! k' /\
  fst (Cache_Get c' k' now1 now2) = fst (Cache_Get c k' now1 now2).
Proof.
  intros Hne c'.
  assert (Hpeek : lru.Peek k' (memCache c') = lru.Peek k' (memCache c)).
  { subst c'. unfold Cache_Purge. cbn [memCache]. apply Peek_Remove_ne. congruence. }
  split; [exact Hpeek|]. split.
  - subst c'. unfold Cache_Purge, redis.Del. cbn [redisClient].
    destruct (redis.fault (redisClient c)); cbn [snd redis.store]; [reflexivity|].
    apply lookup_delete_ne. congruence.
  - rewrite !Get_result. unfold local_fresh. rewrite Hpeek.
    subst c'. unfold Cache_Purge. cbn [redisClient].
    rewrite redis_Get_Del_ne by congruence. reflexivity.
Qed.

Lemma purge_spares_other_keys_witness :
  "k2"%string <> "x"%string /\
  fst (Cache_Get (Cache_Purge sample_cache "x") "k2" 0 0)
  = fst (Cache_Get sample_cache "k2" 0 0).
Proof.
  assert (H : "k2"%string <> "x"%string) by discriminate.
  split; [exact H|].
  exact (proj2 (proj2 (purge_spares_other_keys sample_cache "x" "k2" 0 0 H))).
Defined.

(** ** More about [Set] *)

Lemma Set_local_entry (c : Cache) (k : string) (v : list byte) (now : Z) (e : cacheEntry) :
  lru.Peek k (memCache (Cache_Set c k v now)) = Some e ->
  e = mkEntry v (now + defaultTTL c).
Proof.
  unfold Cache_Set. cbn [memCache]. intros H.
  apply Peek_Add_inv in H. destruct H as [[_ ->]|[Hne _]]; [reflexivity|].
  contradiction Hne. reflexivity.
Qed.




(** X4. [Set] does not report a failed write: with the remote store out of
    reach it still writes the local entry and leaves the remote store as it
    was.  A [Get] before the local expiry then returns [v]; a [Get] at or
    after it returns the wrapped error of the remote store. *)
Theorem set_with_unreachable_store
    (c : Cache) (k : string) (v : list byte) (msg : string) (now0 now1 now2 : Z) :
  redis.fault (redisClient c) = Some msg ->
  let c1 := Cache_Set c k v now0 in
  redisClient c1 = redisClient c /\
  (0 < lru.size (memCache c) -> now1 < now0 + defaultTTL c ->
   fst (Cache_Get c1 k now1 now2) = (v, None)) /\
  (now0 + defaultTTL c <= now1 ->
   fst (Cache_Get c1 k now1 now2)
   = ([], Some (Errorf "redis GET error" (OpError msg)))).
Proof.
  intros Hdown c1.
  assert (Hclient : redisClient c1 = redisClient c).
  { subst c1. unfold Cache_Set, redis.Set_. cbn [redisClient]. rewrite Hdown.
    reflexivity. }
  split; [exact Hclient|]. split.
  - intros Hsize Hlt.
    assert (Hpeek : lru.Peek k (memCache c1) = Some (mkEntry v (now0 + defaultTTL c))).
    { subst c1. unfold Cache_Set. cbn [memCache]. apply Peek_after_Add, Hsize. }
    rewrite (Get_hit c1 k _ now1 now2 Hpeek Hlt). reflexivity.
  - intros Hge. rewrite Get_result.
    assert (Hfresh : local_fresh c1 k now1 = None).
    { apply local_fresh_None.
      destruct (lru.Peek k (memCache c1)) as [e|] eqn:Hpeek; [right|left; reflexivity].
      exists e. split; [reflexivity|].
      apply Set_local_entry in Hpeek. subst e. exact Hge. }
    rewrite Hfresh, Hclient. unfold redis.Get. rewrite Hdown. reflexivity.
Qed.

Lemma set_with_unreachable_store_witness :
  redis.fault (redisClient sample_cache_down)
  = Some "dial tcp: connection refused"%string /\
  0 + defaultTTL sample_cache_down <= 60 /\
  fst (Cache_Get (Cache_Set sample_cache_down "x" [x31] 0) "x" 60 60)
  = ([], Some (Errorf "redis GET error" (OpError "dial tcp: connection refused"))).
Proof.
  assert (H : 0 + defaultTTL sample_cache_down <= 60) by (vm_compute; discriminate).
  split; [reflexivity|]. split; [exact H|].
  exact (proj2 (proj2 (set_with_unreachable_store sample_cache_down "x" [x31] _
                         0 60 60 eq_refl)) H).
Defined.

Lemma Add_Add_eq (V : Type) (k : string) (v1 v2 : V) (m : lru.Cache V) :
  snd (lru.Add k v2 (snd (lru.Add k v1 m))) = snd (lru.Add k v2 m).
Proof.
  unfold lru.Add at 2 3.
  destruct (lru.assoc k (lru.items m)) as [v0|] eqn:Hk.
  - cbn [snd]. unfold lru.Add. cbn [lru.items lru.size lru.assoc].
    rewrite String.eqb_refl. cbn [snd lru.unlink].
    rewrite String.eqb_refl, unlink_idem. reflexivity.
  - cbn zeta. destruct (lru.size m <? Z.of_nat (length ((k, v1) :: lru.items m))) eqn:Hlt.
    + replace (lru.size m <? Z.of_nat (length ((k, v2) :: lru.items m))) with true
        by (rewrite <- Hlt; reflexivity).
      cbn [snd]. destruct (lru.items m) as [|p l'] eqn:Hitems.
      * unfold lru.Add. cbn [removelast lru.items lru.size lru.assoc length] in *.
        rewrite Hlt. reflexivity.
      * change (removelast ((k, v1) :: p :: l')) with ((k, v1) :: removelast (p :: l')).
        change (removelast ((k, v2) :: p :: l')) with ((k, v2) :: removelast (p :: l')).
        unfold lru.Add. cbn [lru.items lru.size lru.assoc].
        rewrite String.eqb_refl. cbn [snd lru.unlink]. rewrite String.eqb_refl.
        rewrite unlink_absent; [reflexivity|].
        destruct (lru.assoc k (removelast (p :: l'))) as [v0|] eqn:E; [|reflexivity].
        apply assoc_removelast in E. congruence.
    + replace (lru.size m <? Z.of_nat (length ((k, v2) :: lru.items m))) with false
        by (rewrite <- Hlt; reflexivity).
      cbn [snd]. unfold lru.Add. cbn [lru.items lru.size lru.assoc].
      rewrite String.eqb_refl. cbn [snd lru.unlink]. rewrite String.eqb_refl.
      rewrite (unlink_absent _ _ Hk). reflexivity.
Qed.

(** X5. The last [Set] wins: two [Set]s of the same key leave the local
    cache and the remote store exactly as the second one alone would, so the
    first value is nowhere to be found and the key is held once. *)
Theorem set_overwrites
    (c : Cache) (k : string) (v1 v2 : list byte) (now1 now2 : Z) :
  memCache (Cache_Set (Cache_Set c k v1 now1) k v2 now2)
  = memCache (Cache_Set c k v2 now2) /\
  redisClient (Cache_Set (Cache_Set c k v1 now1) k v2 now2)
  = redisClient (Cache_Set c k v2 now2).
Proof.
  unfold Cache_Set. cbn [memCache redisClient defaultTTL]. split.
  - apply Add_Add_eq.
  - unfold redis.Set_. destruct (redis.fault (redisClient c)) as [msg|] eqn:Hf;
      cbn [snd redis.fault redis.store].
    + rewrite Hf. reflexivity.
    + rewrite insert_insert_eq. reflexivity.
Qed.

(** X8. [Set(k, v)] never alters what is held under another key: the remote
    store keeps its value, and a local entry of another key is either kept
    unchanged or evicted. *)
Theorem set_spares_other_keys
    (c : Cache) (k k' : string) (v : list byte) (now : Z) :
  k' <> k ->
  let c' := Cache_Set c k v now in
  redis.store (redisClient c') !! k' = redis.store (redisClient c) !! k' /\
  (forall e, lru.Peek k' (memCache c') = Some e ->
             lru.Peek k' (memCache c) = Some e).
Proof.
  intros Hne c'. subst c'. unfold Cache_Set. cbn [memCache redisClient]. split.
  - unfold redis.Set_. destruct (redis.fault (redisClient c)); cbn [snd redis.store];
      [reflexivity|]. apply lookup_insert_ne. congruence.
  - intros e H. apply Peek_Add_inv in H. destruct H as [[Heq _]|[_ H]];
      [contradiction|exact H].
Qed.

Lemma set_spares_other_keys_witness :
  "k2"%string <> "x"%string /\
  redis.store (redisClient (Cache_Set sample_cache "x" [x31] 0)) !! "k2"
  = redis.store (redisClient sample_cache) !! "k2".
Proof.
  assert (H : "k2"%string <> "x"%string) by discriminate.
  split; [exact H|].
  exact (proj1 (set_spares_other_keys sample_cache "x" "k2" [x31] 0 H)).
Defined.

(** ** Agreement of the two layers *)

Section coherence.
Implicit Types (c : Cache) (k : string).

Lemma Set_fault c k v now :
  redis.fault (redisClient (Cache_Set c k v now)) = redis.fault (redisClient c).
Proof.
  unfold Cache_Set, redis.Set_. cbn [redisClient].
  destruct (redis.fault (redisClient c)) eqn:Hf; cbn [snd redis.fault]; [exact Hf|reflexivity].
Qed.

Lemma Purge_fault c k :
  redis.fault (redisClient (Cache_Purge c k)) = redis.fault (redisClient c).
Proof.
  unfold Cache_Purge, redis.Del. cbn [redisClient].
  destruct (redis.fault (redisClient c)) eqn:Hf; cbn [snd redis.fault]; [exact Hf|reflexivity].
Qed.

Lemma coherent_Set c k v now :
  redis.fault (redisClient c) = None -> coherent c -> coherent (Cache_Set c k v now).
Proof.
  intros Hup Hco id entry Hpeek.
  unfold Cache_Set in *. cbn [memCache redisClient] in *.
  unfold redis.Set_. rewrite Hup. cbn [snd redis.store].
  apply Peek_Add_inv in Hpeek. destruct Hpeek as [[-> ->]|[Hne Hpeek]].
  - eexists. split; [apply lookup_insert_eq|reflexivity].
  - rewrite lookup_insert_ne by congruence. exact (Hco id entry Hpeek).
Qed.

Lemma coherent_Purge c k :
  redis.fault (redisClient c) = None -> coherent c -> coherent (Cache_Purge c k).
Proof.
  intros Hup Hco id entry Hpeek.
  unfold Cache_Purge in *. cbn [memCache redisClient] in *.
  unfold redis.Del. rewrite Hup. cbn [snd redis.store].
  apply Peek_Remove_inv in Hpeek. destruct Hpeek as [Hne Hpeek].
  rewrite lookup_delete_ne by congruence. exact (Hco id entry Hpeek).
Qed.

Lemma coherent_Get_redis c mem j k now :
  (forall id entry, lru.Peek id mem = Some entry ->
     exists held, redis.store (redisClient c) !! id = Some held /\
                  redis.value held = value entry) ->
  coherent (snd (Get_redis c mem j k now)).
Proof.
  intros Hmem id entry. rewrite Get_redis_mem, Get_redis_client.
  unfold redis.Get.
  destruct (redis.fault (redisClient c)) as [msg|]; [apply Hmem|].
  destruct (redis.store (redisClient c) !! k) as [held|] eqn:Hk; [|apply Hmem].
  intros Hpeek. apply Peek_Add_inv in Hpeek. destruct Hpeek as [[-> ->]|[_ Hpeek]].
  - exists held. split; [exact Hk|reflexivity].
  - exact (Hmem id entry Hpeek).
Qed.

Lemma coherent_Get c k now1 now2 :
  coherent c -> coherent (snd (Cache_Get c k now1 now2)).
Proof.
  intros Hco.
  destruct (lru.Peek k (memCache c)) as [e|] eqn:Hpeek.
  - destruct (Z.lt_ge_cases now1 (expiresAt e)) as [Hlt|Hge].
    + rewrite (Get_hit c k e now1 now2 Hpeek Hlt). cbn [snd].
      intros id entry. cbn [memCache redisClient]. rewrite Peek_Get_any. apply Hco.
    + rewrite (Get_expired c k e now1 now2 Hpeek Hge).
      apply coherent_Get_redis. intros id entry H.
      apply Peek_Remove_inv in H. exact (Hco id entry (proj2 H)).
  - rewrite (Get_absent_local c k now1 now2 Hpeek).
    apply coherent_Get_redis. exact Hco.
Qed.

Lemma coherent_run ops : forall c,
  redis.fault (redisClient c) = None -> coherent c ->
  Forall (fun o => own_step o = true) ops ->
  coherent (run c ops) /\ redis.fault (redisClient (run c ops)) = None.
Proof.
  induction ops as [|o ops IH]; intros c Hup Hco Hown; [split; assumption|].
  inversion Hown as [|o' ops' Ho Hrest]; subst.
  destruct o as [id now1 now2|id v now|id|r]; cbn [run fold_left apply_op].
  - apply IH; [rewrite Get_client; exact Hup|apply coherent_Get, Hco|exact Hrest].
  - apply IH; [rewrite Set_fault; exact Hup|apply coherent_Set; assumption|exact Hrest].
  - apply IH; [rewrite Purge_fault; exact Hup|apply coherent_Purge; assumption|exact Hrest].
  - discriminate Ho.
Qed.

Lemma Get_coherent c k now1 now2 :
  coherent c -> redis.fault (redisClient c) = None ->
  fst (Cache_Get c k now1 now2) = held_result (redisClient c) k.
Proof.
  intros Hco Hup. rewrite Get_result. unfold held_result, local_fresh.
  destruct (lru.Peek k (memCache c)) as [e|] eqn:Hpeek.
  - destruct (Hco k e Hpeek) as (held & Hheld & Hval).
    unfold redis.Get. rewrite Hup, Hheld, Hval.
    destruct (now1 <? expiresAt e); reflexivity.
  - unfold redis.Get. rewrite Hup.
    destruct (redis.store (redisClient c) !! k); reflexivity.
Qed.

End coherence.

(** X9. Read-through transparency: for a cache returned by [New] over a
    reachable store, as long as only this cache's own [Get], [Set] and
    [Purge] calls happen, every local entry carries the bytes the remote
    store holds under the same key, so every [Get] returns exactly what the
    remote store holds, the value or [ErrNotFound], whatever the clock says
    and whatever was evicted. *)
Theorem get_agrees_with_remote_store
    (net : string -> redis.Client) (opts : Options) (c0 : Cache)
    (ops : list op) (k : string) (now1 now2 : Z) :
  fst (New net opts) = Some c0 ->
  redis.fault (redisClient c0) = None ->
  Forall (fun o => own_step o = true) ops ->
  let c := run c0 ops in
  coherent c /\
  fst (Cache_Get c k now1 now2) = held_result (redisClient c) k.
Proof.
  intros Hnew Hup Hown c.
  assert (Hco0 : coherent c0).
  { destruct (New_success net opts c0 Hnew) as (_ & _ & Hmem & _).
    intros id entry. rewrite Hmem. discriminate. }
  destruct (coherent_run ops c0 Hup Hco0 Hown) as [Hco Hup'].
  split; [exact Hco|]. apply Get_coherent; assumption.
Qed.

Lemma get_agrees_with_remote_store_witness :
  let c0 := cache.mk (lru.mk 2 []) sample_store 60 [RedisPing] in
  let ops := [OpSet "x" [x31] 0; OpGet "k2" 1 1; OpSet "y" [x32] 2; OpPurge "x"] in
  fst (New sample_net (sample_options 60)) = Some c0 /\
  redis.fault (redisClient c0) = None /\
  Forall (fun o => own_step o = true) ops /\
  fst (Cache_Get (run c0 ops) "x" 3 3) = ([], Some ErrNotFound).
Proof.
  intros c0 ops.
  assert (H1 : fst (New sample_net (sample_options 60)) = Some c0) by reflexivity.
  assert (H2 : redis.fault (redisClient c0) = None) by reflexivity.
  assert (H3 : Forall (fun o => own_step o = true) ops)
    by (repeat constructor).
  split; [exact H1|]. split; [exact H2|]. split; [exact H3|].
  exact (proj2 (get_agrees_with_remote_store sample_net (sample_options 60) c0 ops
                  "x" 3 3 H1 H2 H3)).
Defined.

(** ** The life time of a local entry *)

Section ttl_bound.
Implicit Types (c : Cache) (k : string) (t d : Z).

Lemma bound_Set c t k v now :
  all_stale c (t + Z.max 0 (defaultTTL c)) -> t <= now ->
  all_stale (Cache_Set c k v now) (now + Z.max 0 (defaultTTL c)).
Proof.
  intros Hstale Hle id entry. unfold Cache_Set. cbn [memCache].
  intros Hin. apply in_items_Add in Hin. destruct Hin as [[= -> ->]|Hin].
  - simpl. lia.
  - specialize (Hstale id entry Hin). lia.
Qed.

Lemma bound_Get_redis c mem j k t now :
  (forall id entry, In (id, entry) (lru.items mem) ->
     expiresAt entry <= t + Z.max 0 (defaultTTL c)) ->
  t <= now ->
  all_stale (snd (Get_redis c mem j k now)) (now + Z.max 0 (defaultTTL c)).
Proof.
  intros Hmem Hle id entry. rewrite Get_redis_mem.
  destruct (redis.Get (redisClient c) k) as [val [err|]]; intros Hin.
  - specialize (Hmem id entry Hin). lia.
  - apply in_items_Add in Hin. destruct Hin as [[= -> ->]|Hin].
    + simpl. lia.
    + specialize (Hmem id entry Hin). lia.
Qed.

Lemma bound_Get c t k now1 now2 :
  all_stale c (t + Z.max 0 (defaultTTL c)) -> t <= now1 -> now1 <= now2 ->
  all_stale (snd (Cache_Get c k now1 now2)) (now2 + Z.max 0 (defaultTTL c)).
Proof.
  intros Hstale Hle1 Hle2.
  destruct (lru.Peek k (memCache c)) as [e|] eqn:Hpeek.
  - destruct (Z.lt_ge_cases now1 (expiresAt e)) as [Hlt|Hge].
    + rewrite (Get_hit c k e now1 now2 Hpeek Hlt). cbn [snd].
      intros id entry. cbn [memCache]. intros Hin. apply in_items_Get in Hin.
      specialize (Hstale id entry Hin). lia.
    + rewrite (Get_expired c k e now1 now2 Hpeek Hge).
      apply (bound_Get_redis c _ _ k t now2); [|lia].
      intros id entry Hin. apply in_items_Remove in Hin. exact (Hstale id entry Hin).
  - rewrite (Get_absent_local c k now1 now2 Hpeek).
    apply (bound_Get_redis c _ _ k t now2); [exact Hstale|lia].
Qed.

Lemma bound_run ops : forall c t d,
  defaultTTL c = d -> all_stale c (t + Z.max 0 d) -> chronological t ops ->
  all_stale (run c ops) (last_reading t ops + Z.max 0 d).
Proof.
  induction ops as [|o ops IH]; intros c t d Httl Hstale Hchron; [exact Hstale|].
  assert (Httl' : defaultTTL (apply_op c o) = d)
    by (rewrite apply_op_ttl; exact Httl).
  subst d.
  destruct o as [id now1 now2|id v now|id|r]; cbn [run fold_left] in *;
    cbn [chronological last_reading] in *.
  - destruct Hchron as (H1 & H2 & Hrest).
    apply (IH _ now2 _ Httl'); [|exact Hrest].
    apply (bound_Get c t id now1 now2); assumption.
  - destruct Hchron as (H1 & Hrest).
    apply (IH _ now _ Httl'); [|exact Hrest].
    apply (bound_Set c t id v now); assumption.
  - apply (IH _ t _ Httl'); [|exact Hchron].
    intros id' entry Hin. apply in_items_Remove in Hin. exact (Hstale id' entry Hin).
  - apply (IH _ t _ Httl'); [|exact Hchron]. exact Hstale.
Qed.

End ttl_bound.

(** X10. No local entry outlives the default TTL: along any history from
    [New] whose clock never goes backwards (steps of the environment
    included), every local entry expires at most [DefaultTTL] after the last
    clock reading, or at once when the TTL is negative.  So a [Get] that
    comes the default TTL or more after the last call finds nothing fresh,
    sends a GET to the remote store and answers from its reply. *)
Theorem local_entries_expire_within_ttl
    (net : string -> redis.Client) (opts : Options) (c0 : Cache)
    (ops : list op) (t0 : Z) (k : string) (now1 now2 : Z) :
  fst (New net opts) = Some c0 ->
  chronological t0 ops ->
  last_reading t0 ops + Z.max 0 (DefaultTTL opts) <= now1 ->
  let c := run c0 ops in
  all_stale c (last_reading t0 ops + Z.max 0 (DefaultTTL opts)) /\
  local_fresh c k now1 = None /\
  fst (Cache_Get c k now1 now2) = fallback_result (redis.Get (redisClient c) k) /\
  In (RedisGet k) (calls_since c (snd (Cache_Get c k now1 now2))).
Proof.
  intros Hnew Hchron Hlate c.
  destruct (New_success net opts c0 Hnew) as (_ & _ & _ & Hd).
  pose proof (bound_run ops c0 t0 _ Hd
                (all_stale_New net opts c0 _ Hnew) Hchron) as Hstale.
  fold c in Hstale.
  pose proof (all_stale_local_fresh c _ k now1 Hstale Hlate) as Hfresh.
  split; [exact Hstale|]. split; [exact Hfresh|].
  exact (Get_fallback c k now1 now2 Hfresh).
Qed.

Lemma local_entries_expire_within_ttl_witness :
  let c0 := cache.mk (lru.mk 2 []) sample_store 60 [RedisPing] in
  let ops := [OpSet "x" [x31] 10; OpGet "x" 20 20] in
  fst (New sample_net (sample_options 60)) = Some c0 /\
  chronological 0 ops /\
  last_reading 0 ops + Z.max 0 (DefaultTTL (sample_options 60)) <= 80 /\
  In (RedisGet "x") (calls_since (run c0 ops) (snd (Cache_Get (run c0 ops) "x" 80 80))).
Proof.
  intros c0 ops.
  assert (H1 : fst (New sample_net (sample_options 60)) = Some c0) by reflexivity.
  assert (H2 : chronological 0 ops) by (simpl; lia).
  assert (H3 : last_reading 0 ops + Z.max 0 (DefaultTTL (sample_options 60)) <= 80)
    by (simpl; lia).
  split; [exact H1|]. split; [exact H2|]. split; [exact H3|].
  exact (proj2 (proj2 (proj2
           (local_entries_expire_within_ttl sample_net (sample_options 60) c0 ops 0
              "x" 80 80 H1 H2 H3)))).
Defined.

(** ** The size of the local layer *)

Section lru_shape.
Context {V : Type}.
Implicit Types (k : string) (v : V) (l : list (string * V)) (m : lru.Cache V).

Lemma keys_unlink k l x :
  In x (map fst (lru.unlink k l)) -> In x (map fst l) /\ x <> k.
Proof.
  induction l as [|[k0 v0] l IH]; simpl; [tauto|].
  destruct (String.eqb k0 k) eqn:E.
  - intros H. destruct (IH H) as [H1 H2]. split; [right; exact H1|exact H2].
  - apply String.eqb_neq in E. simpl. intros [<-|H]; [split; [left; reflexivity|exact E]|].
    destruct (IH H) as [H1 H2]. split; [right; exact H1|exact H2].
Qed.

Lemma NoDup_keys_unlink k l :
  List.NoDup (map fst l) -> List.NoDup (map fst (lru.unlink k l)).
Proof.
  induction l as [|[k0 v0] l IH]; simpl; [intros _; constructor|].
  intros Hnd. apply NoDup_cons_iff in Hnd. destruct Hnd as [Hnotin Hnd].
  destruct (String.eqb k0 k); [exact (IH Hnd)|].
  simpl. apply NoDup_cons_iff. split; [|exact (IH Hnd)].
  intros Hin. apply keys_unlink in Hin. tauto.
Qed.

Lemma length_unlink_le k l : (length (lru.unlink k l) <= length l)%nat.
Proof.
  induction l as [|[k0 v0] l IH]; simpl; [lia|].
  destruct (String.eqb k0 k); simpl; lia.
Qed.

Lemma length_unlink_lt k l v :
  lru.assoc k l = Some v -> (length (lru.unlink k l) < length l)%nat.
Proof.
  induction l as [|[k0 v0] l IH]; simpl; [discriminate|].
  destruct (String.eqb k0 k).
  - intros _. pose proof (length_unlink_le k l). lia.
  - intros H. specialize (IH H). simpl. lia.
Qed.

Lemma assoc_not_in k l : ~ In k (map fst l) -> lru.assoc k l = None.
Proof.
  induction l as [|[k0 v0] l IH]; simpl; [reflexivity|].
  intros Hnotin. destruct (String.eqb k0 k) eqn:E.
  - apply String.eqb_eq in E. tauto.
  - apply IH. tauto.
Qed.

Lemma NoDup_removelast (A : Type) (xs : list A) :
  List.NoDup xs -> List.NoDup (removelast xs).
Proof.
  induction xs as [|x xs IH]; [intros _; constructor|].
  intros Hnd. apply NoDup_cons_iff in Hnd. destruct Hnd as [Hnotin Hnd].
  destruct xs as [|y ys]; [constructor|].
  change (removelast (x :: y :: ys)) with (x :: removelast (y :: ys)).
  apply NoDup_cons_iff. split; [|exact (IH Hnd)].
  intros Hin. apply Hnotin. exact (in_removelast _ _ _ Hin).
Qed.

Lemma map_fst_removelast l : map fst (removelast l) = removelast (map fst l).
Proof.
  induction l as [|p l IH]; [reflexivity|].
  destruct l as [|q l']; [reflexivity|].
  change (removelast (p :: q :: l')) with (p :: removelast (q :: l')).
  cbn [map]. rewrite IH. reflexivity.
Qed.

Lemma length_removelast_cons (A : Type) (x : A) (xs : list A) :
  length (removelast (x :: xs)) = length xs.
Proof.
  revert x. induction xs as [|y ys IH]; intros x; [reflexivity|].
  change (removelast (x :: y :: ys)) with (x :: removelast (y :: ys)).
  cbn [length]. rewrite IH. reflexivity.
Qed.

Lemma wf_Get k m : lru_wf m -> lru_wf (snd (lru.Get k m)).
Proof.
  intros [Hnd Hlen]. unfold lru.Get.
  destruct (lru.assoc k (lru.items m)) as [v|] eqn:E; [|split; assumption].
  split; cbn [snd lru.items lru.size map fst length].
  - apply NoDup_cons_iff. split; [|apply NoDup_keys_unlink, Hnd].
    intros Hin. apply keys_unlink in Hin. tauto.
  - pose proof (length_unlink_lt k _ v E). lia.
Qed.

Lemma wf_Remove k m : lru_wf m -> lru_wf (snd (lru.Remove k m)).
Proof.
  intros [Hnd Hlen]. split; cbn [snd lru.Remove lru.items lru.size].
  - apply NoDup_keys_unlink, Hnd.
  - pose proof (length_unlink_le k (lru.items m)). lia.
Qed.

Lemma wf_Add k v m : lru_wf m -> lru_wf (snd (lru.Add k v m)).
Proof.
  intros [Hnd Hlen]. unfold lru.Add.
  destruct (lru.assoc k (lru.items m)) as [v0|] eqn:E.
  - split; cbn [snd lru.items lru.size map fst length].
    + apply NoDup_cons_iff. split; [|apply NoDup_keys_unlink, Hnd].
      intros Hin. apply keys_unlink in Hin. tauto.
    + pose proof (length_unlink_lt k _ v0 E). lia.
  - assert (Hfresh : List.NoDup (map fst ((k, v) :: lru.items m))).
    { cbn [map fst]. apply NoDup_cons_iff. split; [|exact Hnd].
      intros Hin. apply in_map_iff in Hin. destruct Hin as ([k0 v0] & Hk & Hin).
      simpl in Hk. subst k0. clear -E Hin.
      induction (lru.items m) as [|[k1 v1] l IH]; [contradiction|].
      simpl in E. destruct (String.eqb k1 k) eqn:Ek; [discriminate|].
      destruct Hin as [[= -> ->]|Hin]; [|exact (IH E Hin)].
      rewrite String.eqb_refl in Ek. discriminate. }
    cbn zeta. destruct (lru.size m <? _) eqn:Hlt; split; cbn [snd lru.items lru.size].
    + rewrite map_fst_removelast. apply NoDup_removelast, Hfresh.
    + rewrite length_removelast_cons. exact Hlen.
    + exact Hfresh.
    + apply Z.ltb_ge in Hlt. exact Hlt.
Qed.

End lru_shape.

Lemma wf_Cache_Get (c : Cache) (k : string) (now1 now2 : Z) :
  lru_wf (memCache c) -> lru_wf (memCache (snd (Cache_Get c k now1 now2))).
Proof.
  intros Hwf.
  assert (Hredis : forall mem j, lru_wf mem ->
            lru_wf (memCache (snd (Get_redis c mem j k now2)))).
  { intros mem j Hmem. rewrite Get_redis_mem.
    destruct (redis.Get (redisClient c) k) as [val [err|]];
      [exact Hmem|apply wf_Add, Hmem]. }
  destruct (lru.Peek k (memCache c)) as [e|] eqn:Hpeek.
  - destruct (Z.lt_ge_cases now1 (expiresAt e)) as [Hlt|Hge].
    + rewrite (Get_hit c k e now1 now2 Hpeek Hlt). apply wf_Get, Hwf.
    + rewrite (Get_expired c k e now1 now2 Hpeek Hge). apply Hredis, wf_Remove, Hwf.
  - rewrite (Get_absent_local c k now1 now2 Hpeek). apply Hredis, Hwf.
Qed.

Lemma wf_run (ops : list op) : forall c,
  lru_wf (memCache c) -> lru_wf (memCache (run c ops)).
Proof.
  induction ops as [|o ops IH]; intros c Hwf; [exact Hwf|].
  cbn [run fold_left]. apply IH.
  destruct o as [id now1 now2|id v now|id|r]; cbn [apply_op].
  - apply wf_Cache_Get, Hwf.
  - unfold Cache_Set. cbn [memCache]. apply wf_Add, Hwf.
  - unfold Cache_Purge. cbn [memCache]. apply wf_Remove, Hwf.
  - exact Hwf.
Qed.

Lemma run_size (ops : list op) : forall c,
  lru.size (memCache (run c ops)) = lru.size (memCache c).
Proof.
  induction ops as [|o ops IH]; intros c; [reflexivity|].
  change (run c (o :: ops)) with (run (apply_op c o) ops).
  rewrite IH. apply apply_op_size.
Qed.

(** X11. The local layer never outgrows its capacity and never holds a key
    twice: after any history from [New], [Stats] reports a length between 0
    and [MaxMemEntries], as many keys as that length, and no key twice. *)
Theorem stats_within_capacity
    (net : string -> redis.Client) (opts : Options) (c0 : Cache) (ops : list op) :
  fst (New net opts) = Some c0 ->
  let s := Cache_Stats (run c0 ops) in
  0 <= MemLen s <= MaxMemEntries opts /\
  MemLen s = Z.of_nat (length (MemKeys s)) /\
  List.NoDup (MemKeys s).
Proof.
  intros Hnew s.
  destruct (New_success net opts c0 Hnew) as (_ & Hcap & Hmem & _).
  assert (Hwf0 : lru_wf (memCache c0)).
  { rewrite Hmem. split; cbn; [constructor|lia]. }
  destruct (wf_run ops c0 Hwf0) as [Hnd Hlen].
  rewrite run_size, Hmem in Hlen. cbn [lru.size] in Hlen.
  subst s. unfold Cache_Stats, lru.Len, lru.Keys. cbn [MemLen MemKeys].
  split; [lia|]. split.
  - rewrite length_rev, length_map. reflexivity.
  - apply List.NoDup_rev, Hnd.
Qed.

Lemma stats_within_capacity_witness :
  let c0 := cache.mk (lru.mk 2 []) sample_store 60 [RedisPing] in
  let ops := [OpSet "x" [x31] 0; OpSet "y" [x32] 1; OpSet "z" [x33] 2] in
  fst (New sample_net (sample_options 60)) = Some c0 /\
  0 <= MemLen (Cache_Stats (run c0 ops)) <= 2.
Proof.
  intros c0 ops.
  assert (H1 : fst (New sample_net (sample_options 60)) = Some c0) by reflexivity.
  split; [exact H1|].
  exact (proj1 (stats_within_capacity sample_net (sample_options 60) c0 ops H1)).
Defined.

(** ** The keys that a run of [Set]s leaves *)

Lemma In_take (A : Type) (x : A) (n : nat) (xs : list A) :
  In x (take n xs) -> In x xs.
Proof.
  revert xs. induction n as [|n IH]; intros [|y ys]; simpl; try tauto.
  intros [<-|H]; [left; reflexivity|right; exact (IH _ H)].
Qed.

Lemma run_snoc (c : Cache) (ops : list op) (o : op) :
  run c (ops ++ [o]) = apply_op (run c ops) o.
Proof. unfold run. rewrite fold_left_app. reflexivity. Qed.

Lemma run_ttl (ops : list op) : forall c, defaultTTL (run c ops) = defaultTTL c.
Proof.
  induction ops as [|o ops IH]; intros c; [reflexivity|].
  change (run c (o :: ops)) with (run (apply_op c o) ops).
  rewrite IH. apply apply_op_ttl.
Qed.

(** After [Set]s of distinct keys into an empty cache the recency list holds
    the last [size] of them, newest first. *)
Lemma items_after_sets (c0 : Cache) (kvs : list (string * list byte * Z)) :
  lru.items (memCache c0) = [] ->
  0 < lru.size (memCache c0) ->
  List.NoDup (map (fun kv => fst (fst kv)) kvs) ->
  lru.items (memCache (run c0 (set_each kvs)))
  = take (Z.to_nat (lru.size (memCache c0)))
      (rev (map (fun kv => (fst (fst kv),
                            mkEntry (snd (fst kv)) (snd kv + defaultTTL c0))) kvs)).
Proof.
  intros Hempty Hsize.
  induction kvs as [|[[k v] now] kvs IH] using rev_ind; intros Hnd.
  - cbn. rewrite Hempty. destruct (Z.to_nat _); reflexivity.
  - rewrite map_app in Hnd. cbn [map fst] in Hnd.
    apply NoDup_remove in Hnd. rewrite app_nil_r in Hnd. destruct Hnd as [Hnd Hnotin].
    specialize (IH Hnd).
    unfold set_each. rewrite map_app. cbn [map fst snd].
    rewrite run_snoc. fold (set_each kvs). cbn [apply_op].
    unfold Cache_Set. cbn [memCache]. rewrite run_ttl.
    rewrite map_app. cbn [map fst snd]. rewrite rev_unit.
    set (es := map (fun kv => (fst (fst kv),
                   mkEntry (snd (fst kv)) (snd kv + defaultTTL c0))) kvs) in *.
    set (e := mkEntry v (now + defaultTTL c0)).
    set (m := memCache (run c0 (set_each kvs))) in *.
    assert (Hm : lru.size m = lru.size (memCache c0)) by apply run_size.
    assert (Hkeys : map fst es = map (fun kv => fst (fst kv)) kvs).
    { subst es. rewrite map_map. reflexivity. }
    assert (Habs : lru.assoc k (lru.items m) = None).
    { apply assoc_not_in. rewrite IH. intros Hin.
      apply in_map_iff in Hin. destruct Hin as (p & Hp & Hin).
      apply In_take, in_rev in Hin. apply Hnotin. rewrite <- Hkeys, <- Hp.
      apply in_map. exact Hin. }
    unfold lru.Add. rewrite Habs. cbn zeta. rewrite IH, Hm.
    set (n := Z.to_nat (lru.size (memCache c0))).
    assert (Hn : lru.size (memCache c0) = Z.of_nat n) by (subst n; lia).
    assert (Hlen : length (take n (rev es)) = Nat.min n (length es)).
    { rewrite length_take, length_rev. reflexivity. }
    destruct (le_lt_dec n (length es)) as [Hfull|Hroom].
    + replace (lru.size (memCache c0) <? Z.of_nat (length ((k, e) :: take n (rev es))))
        with true by (symmetry; apply Z.ltb_lt; cbn [length]; lia).
      cbn [snd lru.items].
      change ((k, e) :: take n (rev es)) with (take (S n) ((k, e) :: rev es)).
      apply removelast_firstn. cbn [length]. rewrite length_rev. lia.
    + replace (lru.size (memCache c0) <? Z.of_nat (length ((k, e) :: take n (rev es))))
        with false by (symmetry; apply Z.ltb_ge; cbn [length]; lia).
      cbn [snd lru.items].
      rewrite (take_ge (rev es)) by (rewrite length_rev; lia).
      rewrite take_ge; [reflexivity|]. cbn [length]. rewrite length_rev. lia.
Qed.

(** X12. Insertion order and eviction: after [Set]s of pairwise distinct
    keys into a cache fresh from [New], [Stats] lists the last
    [MaxMemEntries] of those keys, in the order of the calls; every earlier
    key has been evicted from the local layer. *)
Theorem stats_keys_after_sets
    (net : string -> redis.Client) (opts : Options) (c0 : Cache)
    (kvs : list (string * list byte * Z)) :
  fst (New net opts) = Some c0 ->
  List.NoDup (map (fun kv => fst (fst kv)) kvs) ->
  let s := Cache_Stats (run c0 (set_each kvs)) in
  MemKeys s
  = drop (length kvs - Z.to_nat (MaxMemEntries opts))
      (map (fun kv => fst (fst kv)) kvs) /\
  MemLen s = Z.min (Z.of_nat (length kvs)) (MaxMemEntries opts).
Proof.
  intros Hnew Hnd s.
  destruct (New_success net opts c0 Hnew) as (_ & Hcap & Hmem & _).
  assert (Hitems := items_after_sets c0 kvs).
  rewrite Hmem in Hitems. cbn [lru.items lru.size] in Hitems.
  specialize (Hitems eq_refl Hcap Hnd).
  subst s. unfold Cache_Stats, lru.Keys, lru.Len. cbn [MemKeys MemLen].
  rewrite Hitems. split.
  - rewrite <- firstn_map, map_rev, map_map. cbn [fst].
    rewrite firstn_rev, rev_involutive, length_map. reflexivity.
  - rewrite length_take, length_rev, length_map. lia.
Qed.

Lemma stats_keys_after_sets_witness :
  let c0 := cache.mk (lru.mk 2 []) sample_store 60 [RedisPing] in
  let kvs := [("a"%string, [x31], 0); ("b"%string, [x32], 1); ("c"%string, [x33], 2)] in
  fst (New sample_net (sample_options 60)) = Some c0 /\
  List.NoDup (map (fun kv => fst (fst kv)) kvs) /\
  MemKeys (Cache_Stats (run c0 (set_each kvs))) = ["b"%string; "c"%string].
Proof.
  intros c0 kvs.
  assert (H1 : fst (New sample_net (sample_options 60)) = Some c0) by reflexivity.
  assert (H2 : List.NoDup (map (fun kv => fst (fst kv)) kvs)).
  { repeat constructor; simpl; intros H;
      repeat (destruct H as [H|H]; [discriminate H|]); exact H. }
  split; [exact H1|]. split; [exact H2|].
  exact (proj1 (stats_keys_after_sets sample_net (sample_options 60) c0 kvs H1 H2)).
Defined.

(** ** A local hit and the recency order *)

Lemma keys_unlink_filter (V : Type) (k : string) (l : list (string * V)) :
  map fst (lru.unlink k l)
  = List.filter (fun x => negb (String.eqb x k)) (map fst l).
Proof.
  induction l as [|[k0 v0] l IH]; [reflexivity|].
  cbn [lru.unlink map fst List.filter].
  destruct (String.eqb k0 k); cbn [negb map fst]; rewrite IH; reflexivity.
Qed.

Lemma length_unlink_NoDup (V : Type) (k : string) (l : list (string * V)) (v : V) :
  List.NoDup (map fst l) -> lru.assoc k l = Some v ->
  S (length (lru.unlink k l)) = length l.
Proof.
  induction l as [|[k0 v0] l IH]; [discriminate|].
  cbn [map fst lru.assoc lru.unlink]. intros Hnd.
  apply NoDup_cons_iff in Hnd. destruct Hnd as [Hnotin Hnd].
  destruct (String.eqb k0 k) eqn:E.
  - apply String.eqb_eq in E. subst k0. intros _.
    rewrite (unlink_absent k l (assoc_not_in k l Hnotin)). reflexivity.
  - intros H. cbn [length]. rewrite (IH Hnd H). reflexivity.
Qed.

(** X14. A local hit counts as a use: it makes [k] the most recently used
    key, the last one [Stats] lists and the last one to be evicted, and
    changes nothing else in the local layer: the other keys keep their
    order, every key keeps its entry, and the length stays the same. *)
Theorem local_hit_refreshes_recency
    (c : Cache) (k : string) (e : cacheEntry) (now1 now2 : Z) :
  lru.Peek k (memCache c) = Some e ->
  now1 < expiresAt e ->
  let c' := snd (Cache_Get c k now1 now2) in
  MemKeys (Cache_Stats c')
  = List.filter (fun x => negb (String.eqb x k)) (MemKeys (Cache_Stats c)) ++ [k] /\
  (forall k', lru.Peek k' (memCache c') = lru.Peek k' (memCache c)) /\
  (lru_wf (memCache c) -> MemLen (Cache_Stats c') = MemLen (Cache_Stats c)).
Proof.
  intros Hpeek Hlt c'. subst c'. rewrite (Get_hit c k e now1 now2 Hpeek Hlt).
  cbn [snd memCache]. unfold Cache_Stats. cbn [MemKeys MemLen memCache].
  split; [|split].
  - unfold lru.Keys, lru.Get. unfold lru.Peek in Hpeek. rewrite Hpeek.
    cbn [snd lru.items map fst rev].
    rewrite keys_unlink_filter, filter_rev. reflexivity.
  - intros k'. apply Peek_Get_any.
  - intros [Hnd _]. unfold lru.Len, lru.Get. unfold lru.Peek in Hpeek. rewrite Hpeek.
    cbn [snd lru.items length].
    rewrite (length_unlink_NoDup _ k _ e Hnd Hpeek). reflexivity.
Qed.

Lemma local_hit_refreshes_recency_witness :
  let c := Cache_Set (Cache_Set (cache.mk (lru.mk 2 []) sample_store 60 []) "a" [x31] 0)
             "b" [x32] 0 in
  lru.Peek "a" (memCache c) = Some (mkEntry [x31] 60) /\
  1 < expiresAt (mkEntry [x31] 60) /\
  MemKeys (Cache_Stats (snd (Cache_Get c "a" 1 1))) = ["b"%string; "a"%string].
Proof.
  intros c.
  assert (H1 : lru.Peek "a" (memCache c) = Some (mkEntry [x31] 60)) by reflexivity.
  assert (H2 : 1 < expiresAt (mkEntry [x31] 60)) by reflexivity.
  split; [exact H1|]. split; [exact H2|].
  exact (proj1 (local_hit_refreshes_recency c "a" _ 1 1 H1 H2)).
Defined.

(** ** The example program *)

Lemma in_items_Cache_Get (c : Cache) (k : string) (now1 now2 : Z)
    (p : string * cacheEntry) :
  In p (lru.items (memCache (snd (Cache_Get c k now1 now2)))) ->
  In p (lru.items (memCache c)) \/ fst p = k.
Proof.
  assert (Hredis : forall mem j,
            In p (lru.items (memCache (snd (Get_redis c mem j k now2)))) ->
            In p (lru.items mem) \/ fst p = k).
  { intros mem j. rewrite Get_redis_mem.
    destruct (redis.Get (redisClient c) k) as [val [err|]]; [left; assumption|].
    intros H. apply in_items_Add in H. destruct H as [->|H]; [right|left]; auto. }
  destruct (lru.Peek k (memCache c)) as [e|] eqn:Hpeek.
  - destruct (Z.lt_ge_cases now1 (expiresAt e)) as [Hlt|Hge].
    + rewrite (Get_hit c k e now1 now2 Hpeek Hlt). cbn [snd memCache].
      intros H. left. exact (in_items_Get _ _ _ H).
    + rewrite (Get_expired c k e now1 now2 Hpeek Hge). intros H.
      apply Hredis in H. destruct H as [H|H]; [left|right; exact H].
      exact (in_items_Remove _ _ _ H).
  - rewrite (Get_absent_local c k now1 now2 Hpeek). apply Hredis.
Qed.





(** ** Other keys during a [Get] *)

(** X17. [Get(k)] never alters the entry of another key: a local entry
    found under another key after the call was there, unchanged, before the
    call (the repopulation of [k] can only evict it), and when [Get] does
    not repopulate, because it hit locally or ended in an error, every
    other key keeps its entry. *)
Theorem get_spares_other_keys
    (c : Cache) (k k' : string) (now1 now2 : Z) :
  k' <> k ->
  let c' := snd (Cache_Get c k now1 now2) in
  (forall e, lru.Peek k' (memCache c') = Some e ->
             lru.Peek k' (memCache c) = Some e) /\
  (local_fresh c k now1 <> None \/ snd (fst (Cache_Get c k now1 now2)) <> None ->
   lru.Peek k' (memCache c') = lru.Peek k' (memCache c)).
Proof.
  intros Hne c'. subst c'. split.
  - intros e.
    assert (Hredis : forall mem j,
              lru.Peek k' (memCache (snd (Get_redis c mem j k now2))) = Some e ->
              lru.Peek k' mem = Some e).
    { intros mem j. rewrite Get_redis_mem.
      destruct (redis.Get (redisClient c) k) as [val [err|]]; [tauto|].
      intros H. apply Peek_Add_inv in H. destruct H as [[H _]|[_ H]];
        [contradiction|exact H]. }
    destruct (lru.Peek k (memCache c)) as [e0|] eqn:Hpeek.
    + destruct (Z.lt_ge_cases now1 (expiresAt e0)) as [Hlt|Hge].
      * rewrite (Get_hit c k e0 now1 now2 Hpeek Hlt). cbn [snd memCache].
        rewrite Peek_Get_any. tauto.
      * rewrite (Get_expired c k e0 now1 now2 Hpeek Hge). intros H.
        apply Hredis in H. rewrite Peek_Remove_ne in H by congruence. exact H.
    + rewrite (Get_absent_local c k now1 now2 Hpeek). apply Hredis.
  - intros [Hfresh|Herr].
    + unfold local_fresh in Hfresh.
      destruct (lru.Peek k (memCache c)) as [e0|] eqn:Hpeek;
        [|contradiction Hfresh; reflexivity].
      destruct (now1 <? expiresAt e0) eqn:Hlt; [|contradiction Hfresh; reflexivity].
      apply Z.ltb_lt in Hlt. rewrite (Get_hit c k e0 now1 now2 Hpeek Hlt).
      cbn [snd memCache]. apply Peek_Get_any.
    + rewrite (Get_error_state c k now1 now2 Herr).
      apply Peek_Remove_ne. congruence.
Qed.

Lemma get_spares_other_keys_witness :
  let c := Cache_Set sample_cache "x" [x31] 0 in
  "x"%string <> "nope"%string /\
  snd (fst (Cache_Get c "nope" 1 1)) <> None /\
  lru.Peek "x" (memCache (snd (Cache_Get c "nope" 1 1))) = lru.Peek "x" (memCache c).
Proof.
  intros c.
  assert (H1 : "x"%string <> "nope"%string) by discriminate.
  assert (H2 : snd (fst (Cache_Get c "nope" 1 1)) <> None) by discriminate.
  split; [exact H1|]. split; [exact H2|].
  exact (proj2 (get_spares_other_keys c "nope" "x" 1 1 H1) (or_intror H2)).
Defined.
